(** * Leftist tree: a mergeable min-priority queue

    Shallow embedding of [leftist_tree.cc] and the properties of its
    operations: [merge], [insert], [getMin], [extractMin], [mergeWith].

    Modelling choices.
    - A value of type [Node] stands for a C++ [Node*] together with the
      subtree it owns: [nullptr], or a node with its four fields.  The
      program never shares a node between two parents, so an in-place
      update of [h1->right] is the construction of the updated node.
    - [int] fields are read as [Z].  Keys are only compared, never
      computed with; [npl] is incremented, and lemma [size_lower_bound]
      shows that it stays below the logarithm of the node count.
    - [LeftistTree] objects live in a store indexed by their address;
      the only field of an object is [root].  [mergeWith] compares the
      two addresses, exactly as [this == &otherTree] does.
    - A C++ exception is the [Throw] outcome of a call. *)

From Equations Require Import Equations.
From Stdlib Require Import Ascii.
From stdpp Require Import gmap gmultiset sorting strings pretty.

Local Open Scope Z_scope.

(** ** Nodes *)

Inductive Node : Type :=
| nullptr : Node
| mkNode (key : Z) (npl : Z) (left right : Node) : Node.

#[global] Instance Node_inhabited : Inhabited Node := populate nullptr.

#[global] Instance Node_eq_dec : EqDecision Node.
Proof. solve_decision. Defined.

(** [Node(int k)]: key [k], npl 0, no children. *)
Definition new_Node (k : Z) : Node := mkNode k 0 nullptr nullptr.

Definition left (node : Node) : Node :=
  match node with nullptr => nullptr | mkNode _ _ l _ => l end.

Definition right (node : Node) : Node :=
  match node with nullptr => nullptr | mkNode _ _ _ r => r end.

(** Assignments to one field of a node. *)
Definition set_right (node r : Node) : Node :=
  match node with nullptr => nullptr | mkNode k n l _ => mkNode k n l r end.

Definition set_npl (node : Node) (n : Z) : Node :=
  match node with nullptr => nullptr | mkNode k _ l r => mkNode k n l r end.

Definition getNPL (node : Node) : Z :=
  match node with
  | nullptr => -1
  | mkNode _ n _ _ => n
  end.

Definition swapChildren (node : Node) : Node :=
  match node with
  | nullptr => nullptr
  | mkNode k n l r => mkNode k n r l
  end.

(** Number of nodes on the path that follows [right] pointers. *)
Fixpoint rspine (node : Node) : nat :=
  match node with
  | nullptr => 0%nat
  | mkNode _ _ _ r => S (rspine r)
  end.

(** The statements of [merge] that follow the recursive call, with [h1]
    the root that is kept and [merged] the value of the recursive call:
    store it in [h1->right], swap the children when the left one has the
    smaller npl, then recompute [h1->npl]. *)
Definition merge_unwind (h1 merged : Node) : Node :=
  let h1 := set_right h1 merged in
  let h1 := if getNPL (left h1) <? getNPL (right h1)
            then swapChildren h1 else h1 in
  set_npl h1 (getNPL (right h1) + 1).

(** [merge]: the recursive call is on the right child of whichever root
    has the smaller key; the two clauses of the key test are the two
    outcomes of [swap(h1, h2)]. *)
Equations? merge (h1 h2 : Node) : Node by wf (rspine h1 + rspine h2)%nat lt :=
  merge nullptr h2 := h2;
  merge h1 nullptr := h1;
  merge (mkNode k1 n1 l1 r1) (mkNode k2 n2 l2 r2) :=
    if k1 >? k2
    then merge_unwind (mkNode k2 n2 l2 r2) (merge r2 (mkNode k1 n1 l1 r1))
    else merge_unwind (mkNode k1 n1 l1 r1) (merge r1 (mkNode k2 n2 l2 r2)).
Proof. all: simpl; lia. Qed.

(** [merge] with an explicit bound on the depth of the recursion: every
    recursive call consumes one unit of [fuel], the two base cases none. *)
Fixpoint merge_fuel (fuel : nat) (h1 h2 : Node) : option Node :=
  match h1, h2 with
  | nullptr, _ => Some h2
  | _, nullptr => Some h1
  | mkNode k1 _ _ r1, mkNode k2 _ _ r2 =>
      match fuel with
      | O => None
      | S fuel =>
          if k1 >? k2
          then merge_unwind h2 <$> merge_fuel fuel r2 h1
          else merge_unwind h1 <$> merge_fuel fuel r1 h2
      end
  end.

(** ** Contents and shape of a tree *)

(** The multiset of the keys stored in a tree. *)
Fixpoint keys (node : Node) : gmultiset Z :=
  match node with
  | nullptr => ∅
  | mkNode k _ l r => {[+ k +]} ⊎ keys l ⊎ keys r
  end.

(** The element count: the number of nodes. *)
Fixpoint count (node : Node) : nat :=
  match node with
  | nullptr => 0%nat
  | mkNode _ _ l r => S (count l + count r)
  end.

(** All the nodes of a tree, the root first. *)
Fixpoint nodes (node : Node) : list Node :=
  match node with
  | nullptr => []
  | mkNode k n l r => mkNode k n l r :: nodes l ++ nodes r
  end.

(** The null path length as the data model defines it: the number of
    edges on a shortest path to an absent child, -1 for an absent node.
    It is computed from the shape alone and ignores the stored field. *)
Fixpoint NPL (node : Node) : Z :=
  match node with
  | nullptr => -1
  | mkNode _ _ l r => 1 + Z.min (NPL l) (NPL r)
  end.

(** ** Invariants *)

Definition key_le_child (k : Z) (child : Node) : Prop :=
  match child with
  | nullptr => True
  | mkNode k' _ _ _ => k ≤ k'
  end.

(** Heap order at one node: its key is at most the key of each present
    child. *)
Definition heap_order_at (node : Node) : Prop :=
  match node with
  | nullptr => True
  | mkNode k _ l r => key_le_child k l ∧ key_le_child k r
  end.

(** Leftist property at one node, and the value of its [npl] field. *)
Definition leftist_at (node : Node) : Prop :=
  match node with
  | nullptr => True
  | mkNode _ n l r => NPL r ≤ NPL l ∧ n = NPL r + 1
  end.

Definition heap_ordered (t : Node) : Prop := Forall heap_order_at (nodes t).
Definition leftist (t : Node) : Prop := Forall leftist_at (nodes t).
Definition leftist_heap (t : Node) : Prop := heap_ordered t ∧ leftist t.

#[global] Instance key_le_child_dec k child : Decision (key_le_child k child).
Proof. destruct child; simpl; apply _. Defined.
#[global] Instance heap_order_at_dec node : Decision (heap_order_at node).
Proof. destruct node; simpl; apply _. Defined.
#[global] Instance leftist_at_dec node : Decision (leftist_at node).
Proof. destruct node; simpl; apply _. Defined.
#[global] Instance heap_ordered_dec t : Decision (heap_ordered t).
Proof. unfold heap_ordered; apply _. Defined.
#[global] Instance leftist_dec t : Decision (leftist t).
Proof. unfold leftist; apply _. Defined.
#[global] Instance leftist_heap_dec t : Decision (leftist_heap t).
Proof. unfold leftist_heap; apply _. Defined.

(** ** The class [LeftistTree] *)

(** Address of a [LeftistTree] object. *)
Definition addr : Type := nat.

(** The store gives the [root] field of every object.  An address the
    store does not list is an object on which only the constructor
    [LeftistTree() : root(nullptr)] has run, hence the total lookup
    [s !!! this], which reads [nullptr] there. *)
Abbreviation store := (gmap addr Node).

Inductive exception : Type :=
| runtime_error (what : string).

Inductive outcome (A : Type) : Type :=
| Return (a : A)
| Throw (e : exception).
Arguments Return {A} a.
Arguments Throw {A} e.

(** A method call: from the store before to the outcome and the store
    after. *)
Definition method (A : Type) : Type := store → outcome A * store.

Definition root (this : addr) (s : store) : Node := s !!! this.

Definition key (node : Node) : Z :=
  match node with nullptr => 0 | mkNode k _ _ _ => k end.

Definition LeftistTree (this : addr) : method () := fun s =>
  (Return (), <[this := nullptr]> s).

Definition isEmpty (this : addr) (s : store) : bool :=
  bool_decide (root this s = nullptr).

Definition insert (this : addr) (k : Z) : method () := fun s =>
  let newNode := new_Node k in
  (Return (), <[this := merge (root this s) newNode]> s).

Definition getMin (this : addr) : method Z := fun s =>
  if isEmpty this s
  then (Throw (runtime_error "Heap is empty!"), s)
  else (Return (key (root this s)), s).

Definition extractMin (this : addr) : method Z := fun s =>
  if isEmpty this s
  then (Throw (runtime_error "Heap is empty! Cannot extract min."), s)
  else
    let minKey := key (root this s) in
    let oldRoot := root this s in
    (Return minKey, <[this := merge (left oldRoot) (right oldRoot)]> s).

Definition mergeWith (this otherTree : addr) : method () := fun s =>
  if decide (this = otherTree)
  then (Return (), s)
  else
    let s := <[this := merge (root this s) (root otherTree s)]> s in
    (Return (), <[otherTree := nullptr]> s).

(** ** Callers *)

(** The loop [while (!lt.isEmpty()) out.push_back(lt.extractMin());] of
    the tests.  One unit of [fuel] per iteration; [None] when the fuel
    runs out, and an exception of [extractMin] leaves the loop. *)
Fixpoint drain (fuel : nat) (this : addr) (s : store)
  : option (outcome (list Z) * store) :=
  if isEmpty this s then Some (Return [], s)
  else
    match fuel with
    | O => None
    | S fuel =>
        match extractMin this s with
        | (Throw e, s') => Some (Throw e, s')
        | (Return k, s') =>
            match drain fuel this s' with
            | Some (Return out, s'') => Some (Return (k :: out), s'')
            | r => r
            end
        end
    end.

(** [lt.insert(k)] for every [k] of a list, first to last. *)
Fixpoint insert_all (this : addr) (ks : list Z) (s : store) : store :=
  match ks with
  | [] => s
  | k :: ks => insert_all this ks (insert this k s).2
  end.

(** A call of a public method on some object.  [Construct] is the
    constructor running at an address, which may have held an object
    that was destroyed. *)
Inductive call : Type :=
| Construct (this : addr)
| IsEmpty (this : addr)
| Insert (this : addr) (k : Z)
| GetMin (this : addr)
| ExtractMin (this : addr)
| MergeWith (this otherTree : addr).

Definition exec (c : call) (s : store) : store :=
  match c with
  | Construct this => (LeftistTree this s).2
  | IsEmpty this => s
  | Insert this k => (insert this k s).2
  | GetMin this => (getMin this s).2
  | ExtractMin this => (extractMin this s).2
  | MergeWith this otherTree => (mergeWith this otherTree s).2
  end.

(** The store after a sequence of calls, first to last. *)
Fixpoint run (cs : list call) (s : store) : store :=
  match cs with
  | [] => s
  | c :: cs => run cs (exec c s)
  end.

(** The stores a program can reach: it starts with no object and only
    calls public methods. *)
Definition reachable (s : store) : Prop := ∃ cs, s = run cs ∅.

(** Every heap of the store is heap-ordered and leftist. *)
Definition store_inv (s : store) : Prop := ∀ this, leftist_heap (root this s).

(** Closed decidable goals are settled by evaluation. *)
Ltac by_evaluation :=
  first [ vm_compute; reflexivity
        | apply (bool_decide_unpack _); vm_compute; exact I ].

(** ** printTree *)

(** What a call writes to [cout], as the list of the lines it ends with
    [endl].  The branch marks and the indentation are the UTF-8 strings
    of the source; [pretty] is the decimal notation [operator<<] prints
    for an [int]. *)
Fixpoint printTreeRecursive (node : Node) (prefix : string) (isLeft : bool)
  : list string :=
  match node with
  | nullptr => []
  | mkNode k n l r =>
      (prefix +:+ (if isLeft then "├──L:" else "└──R:")
         +:+ pretty k +:+ " (npl:" +:+ pretty n +:+ ")")
      :: printTreeRecursive l (prefix +:+ (if isLeft then "│   " else "    ")) true
      ++ printTreeRecursive r (prefix +:+ (if isLeft then "│   " else "    ")) false
  end.

Definition printTree (this : addr) (s : store) : list string :=
  if isEmpty this s
  then ["Tree is empty."]
  else printTreeRecursive (root this s) "" false.

(** What a line of the dump says about a node: after the indentation
    [prefix] and some more indentation and a branch mark, the key and
    the stored npl of that node. *)
Definition line_shows (prefix : string) (line : string) (node : Node) : Prop :=
  ∃ mark,
    line = prefix +:+ mark +:+ pretty (key node)
             +:+ " (npl:" +:+ pretty (getNPL node) +:+ ")".

(** Whether a character occurs in a string. *)
Fixpoint has_char (c : Ascii.ascii) (s : string) : bool :=
  match s with
  | EmptyString => false
  | String a s => bool_decide (a = c) || has_char c s
  end.

(** Lines of the dump of a left subtree, and of a right subtree, below
    the indentation [p]: they continue [p] with the mark of a left
    (right) branch or with the rule (blank) that runs beside a left
    (right) subtree. *)
Definition left_line (p line : string) : Prop :=
  ∃ rest, line = p +:+ "├" +:+ rest ∨ line = p +:+ "│" +:+ rest.
Definition right_line (p line : string) : Prop :=
  ∃ rest, line = p +:+ "└" +:+ rest ∨ line = p +:+ " " +:+ rest.

(** ** The nodes in memory

    The same program on the representation the source has: a [Node] is a
    record in memory, a [Node*] is an address or null, and every read or
    write of a field goes through memory.  Reading or freeing an address
    that holds no node is undefined behaviour ([Fault]).  Recursive
    functions take a bound on the depth of their recursion and give
    [Timeout] when it is exceeded. *)

Definition loc : Type := positive.

(** A [Node*]: null or the address of a node. *)
Definition ptr : Type := option loc.

(** [struct Node]. *)
Record cell : Type := Cell {
  c_key : Z;
  c_npl : Z;
  c_left : ptr;
  c_right : ptr;
}.

Abbreviation memory := (gmap loc cell).

Inductive res (S A : Type) : Type :=
| Ok (a : A) (σ : S)
| Fault
| Timeout.
Arguments Ok {S A} a σ.
Arguments Fault {S A}.
Arguments Timeout {S A}.

(** A computation on a state of type [S]. *)
Definition M (S A : Type) : Type := S → res S A.

#[global] Instance M_ret {S} : MRet (M S) := λ A a σ, Ok a σ.
#[global] Instance M_bind {S} : MBind (M S) := λ A B f c σ,
  match c σ with
  | Ok a σ' => f a σ'
  | Fault => Fault
  | Timeout => Timeout
  end.

Definition timeout {S A} : M S A := λ _, Timeout.
Definition fault {S A} : M S A := λ _, Fault.

(** [*a] as an rvalue, [*a = c], and [delete a]. *)
Definition read (a : loc) : M memory cell := λ m,
  match m !! a with Some c => Ok c m | None => Fault end.

Definition write (a : loc) (c : cell) : M memory () := λ m,
  match m !! a with Some _ => Ok () (<[a := c]> m) | None => Fault end.

Definition free (a : loc) : M memory () := λ m,
  match m !! a with Some _ => Ok () (delete a m) | None => Fault end.

Definition getNPL_ptr (node : ptr) : M memory Z :=
  match node with
  | None => mret (-1)
  | Some a => c ← read a; mret (c_npl c)
  end.

Definition swapChildren_ptr (node : ptr) : M memory () :=
  match node with
  | None => mret ()
  | Some a =>
      c ← read a;
      write a (Cell (c_key c) (c_npl c) (c_right c) (c_left c))
  end.

(** The statements of [merge] after the recursive call. *)
Definition merge_unwind_ptr (h1 : loc) (merged : ptr) : M memory ptr :=
  c ← read h1;
  write h1 (Cell (c_key c) (c_npl c) (c_left c) merged);;
  c ← read h1;
  nl ← getNPL_ptr (c_left c);
  c ← read h1;
  nr ← getNPL_ptr (c_right c);
  (if nl <? nr then swapChildren_ptr (Some h1) else mret ());;
  c ← read h1;
  nr ← getNPL_ptr (c_right c);
  c ← read h1;
  write h1 (Cell (c_key c) (nr + 1) (c_left c) (c_right c));;
  mret (Some h1).

Fixpoint merge_ptr (fuel : nat) (h1 h2 : ptr) : M memory ptr :=
  match h1, h2 with
  | None, _ => mret h2
  | _, None => mret h1
  | Some a1, Some a2 =>
      c1 ← read a1;
      c2 ← read a2;
      let '(a1, a2) := if c_key c1 >? c_key c2 then (a2, a1) else (a1, a2) in
      match fuel with
      | O => timeout
      | S fuel =>
          c1 ← read a1;
          merged ← merge_ptr fuel (c_right c1) (Some a2);
          merge_unwind_ptr a1 merged
      end
  end.

Fixpoint destroyRecursive_ptr (fuel : nat) (node : ptr) : M memory () :=
  match node with
  | None => mret ()
  | Some a =>
      match fuel with
      | O => timeout
      | S fuel =>
          c ← read a;
          destroyRecursive_ptr fuel (c_left c);;
          c ← read a;
          destroyRecursive_ptr fuel (c_right c);;
          free a
      end
  end.

(** [tree_at m p t F]: in memory [m] the pointer [p] is the root of the
    tree [t], whose nodes lie at the addresses [F], each at an address
    of its own. *)
Fixpoint tree_at (m : memory) (p : ptr) (t : Node) (F : gset loc) : Prop :=
  match t with
  | nullptr => p = None ∧ F = ∅
  | mkNode k n l r =>
      ∃ a pl pr Fl Fr,
        p = Some a ∧ m !! a = Some (Cell k n pl pr) ∧
        tree_at m pl l Fl ∧ tree_at m pr r Fr ∧
        F = {[a]} ∪ Fl ∪ Fr ∧ (a ∉ Fl) ∧ (a ∉ Fr) ∧ (Fl ## Fr)
  end.

(** What [merge_ptr] is shown to do with [fuel] nested calls at its
    disposal; the statement of the induction on [fuel]. *)
Definition merge_ptr_spec (fuel : nat) : Prop :=
  ∀ (m : memory) h1 h2 t1 t2 F1 F2,
    tree_at m h1 t1 F1 → tree_at m h2 t2 F2 → F1 ## F2 →
    (rspine t1 + rspine t2 ≤ fuel)%nat →
    ∃ p m',
      merge_ptr fuel h1 h2 m = Ok p m' ∧
      tree_at m' p (merge t1 t2) (F1 ∪ F2) ∧
      (∀ a, a ∉ F1 ∪ F2 → m' !! a = m !! a) ∧
      dom m' = dom m.

(** What [destroyRecursive_ptr] is shown to do with [fuel] nested calls
    at its disposal. *)
Definition destroyRecursive_ptr_spec (fuel : nat) : Prop :=
  ∀ (m : memory) p t F,
    tree_at m p t F → (count t ≤ fuel)%nat →
    ∃ m',
      destroyRecursive_ptr fuel p m = Ok () m' ∧
      dom m' = dom m ∖ F ∧
      (∀ a, a ∉ F → m' !! a = m !! a).

(** ** The objects in memory *)

(** The nodes and the [LeftistTree] objects that exist, these with
    their [root] field. *)
Record machine : Type := Machine {
  mem : gmap loc cell;
  objs : gmap addr ptr;
}.

Definition on_mem {A} (c : M memory A) : M machine A := λ σ,
  match c (mem σ) with
  | Ok a m => Ok a (Machine m (objs σ))
  | Fault => Fault
  | Timeout => Timeout
  end.

(** [this->root] as an rvalue, [this->root = p], and [*(this->root)].
    The object has to exist. *)
Definition get_root (this : addr) : M machine ptr := λ σ,
  match objs σ !! this with Some p => Ok p σ | None => Fault end.

Definition set_root (this : addr) (p : ptr) : M machine () := λ σ,
  match objs σ !! this with
  | Some _ => Ok () (Machine (mem σ) (<[this := p]> (objs σ)))
  | None => Fault
  end.

Definition deref_root (this : addr) : M machine cell :=
  p ← get_root this;
  match p with
  | None => fault
  | Some a => on_mem (read a)
  end.

(** The constructor: an object comes to exist where none is. *)
Definition LeftistTree_ptr (this : addr) : M machine () := λ σ,
  match objs σ !! this with
  | Some _ => Fault
  | None => Ok () (Machine (mem σ) (<[this := None]> (objs σ)))
  end.

(** The destructor, after which the object is gone. *)
Definition end_lifetime (this : addr) : M machine () := λ σ,
  Ok () (Machine (mem σ) (delete this (objs σ))).

Definition destructor_ptr (fuel : nat) (this : addr) : M machine () :=
  p ← get_root this;
  on_mem (destroyRecursive_ptr fuel p);;
  end_lifetime this.

Definition isEmpty_ptr (this : addr) : M machine bool :=
  p ← get_root this;
  mret (bool_decide (p = None)).

Definition getMin_ptr (this : addr) : M machine (outcome Z) :=
  e ← isEmpty_ptr this;
  if (e : bool) then mret (Throw (runtime_error "Heap is empty!"))
  else
    c ← deref_root this;
    mret (Return (c_key c)).

Definition extractMin_ptr (fuel : nat) (this : addr) : M machine (outcome Z) :=
  e ← isEmpty_ptr this;
  if (e : bool) then mret (Throw (runtime_error "Heap is empty! Cannot extract min."))
  else
    c ← deref_root this;
    let minKey := c_key c in
    oldRoot ← get_root this;
    cl ← deref_root this;
    cr ← deref_root this;
    r ← on_mem (merge_ptr fuel (c_left cl) (c_right cr));
    set_root this r;;
    match oldRoot with
    | None => mret ()
    | Some a => on_mem (free a)
    end;;
    mret (Return minKey).

Definition mergeWith_ptr (fuel : nat) (this otherTree : addr)
  : M machine (outcome ()) :=
  if decide (this = otherTree) then mret (Return ())
  else
    p1 ← get_root this;
    p2 ← get_root otherTree;
    r ← on_mem (merge_ptr fuel p1 p2);
    set_root this r;;
    set_root otherTree None;;
    mret (Return ()).

(** What a caller sees of a call. *)
Inductive obs : Type :=
| ObsVoid
| ObsBool (b : bool)
| ObsKey (o : outcome Z).

Definition observe (c : call) (s : store) : obs :=
  match c with
  | IsEmpty this => ObsBool (isEmpty this s)
  | GetMin this => ObsKey (getMin this s).1
  | ExtractMin this => ObsKey (extractMin this s).1
  | _ => ObsVoid
  end.

Fixpoint run_obs (cs : list call) (s : store) : list obs :=
  match cs with
  | [] => []
  | c :: cs => observe c s :: run_obs cs (exec c s)
  end.

(** A step of a program: a call of a public method, or the end of the
    lifetime of an object. *)
Inductive pcall : Type :=
| Call (c : call)
| Destroy (this : addr).

(** In the model on trees the address of a destroyed object reads as an
    empty heap, as after [Construct]. *)
Definition abs (c : pcall) : call :=
  match c with
  | Call c => c
  | Destroy this => Construct this
  end.

Section allocator.
(** [new] returns an address chosen from the memory in use. *)
Variable alloc : memory → loc.

Definition new_Node_ptr (k : Z) : M memory loc := λ m,
  let a := alloc m in Ok a (<[a := Cell k 0 None None]> m).

Definition insert_ptr (fuel : nat) (this : addr) (k : Z)
  : M machine (outcome ()) :=
  newNode ← on_mem (new_Node_ptr k);
  p ← get_root this;
  r ← on_mem (merge_ptr fuel p (Some newNode));
  set_root this r;;
  mret (Return ()).

Definition exec_ptr (fuel : nat) (c : pcall) : M machine obs :=
  match c with
  | Call (Construct this) => LeftistTree_ptr this;; mret ObsVoid
  | Call (IsEmpty this) => b ← isEmpty_ptr this; mret (ObsBool b)
  | Call (Insert this k) => insert_ptr fuel this k;; mret ObsVoid
  | Call (GetMin this) => o ← getMin_ptr this; mret (ObsKey o)
  | Call (ExtractMin this) => o ← extractMin_ptr fuel this; mret (ObsKey o)
  | Call (MergeWith this otherTree) =>
      mergeWith_ptr fuel this otherTree;; mret ObsVoid
  | Destroy this => destructor_ptr fuel this;; mret ObsVoid
  end.

Fixpoint run_ptr (fuel : nat) (cs : list pcall) : M machine (list obs) :=
  match cs with
  | [] => mret []
  | c :: cs =>
      o ← exec_ptr fuel c;
      os ← run_ptr fuel cs;
      mret (o :: os)
  end.
End allocator.

(** The objects a step needs to exist, and whether a program respects
    the lifetimes of its objects: it constructs an object only where
    none exists and uses and destroys only objects that exist. *)
Fixpoint lifetimes_ok (live : gset addr) (cs : list pcall) : bool :=
  match cs with
  | [] => true
  | Call (Construct this) :: cs =>
      bool_decide (this ∉ live) && lifetimes_ok ({[this]} ∪ live) cs
  | Destroy this :: cs =>
      bool_decide (this ∈ live) && lifetimes_ok (live ∖ {[this]}) cs
  | Call (MergeWith this otherTree) :: cs =>
      bool_decide (this ∈ live) && bool_decide (otherTree ∈ live)
      && lifetimes_ok live cs
  | Call (IsEmpty this) :: cs
  | Call (Insert this _) :: cs
  | Call (GetMin this) :: cs
  | Call (ExtractMin this) :: cs =>
      bool_decide (this ∈ live) && lifetimes_ok live cs
  end.

(** [repr σ s fp]: the machine state [σ] holds the heaps of the store
    [s].  The root of every object that exists leads to its tree, whose
    nodes are at the addresses [fp this]; an address without object
    reads as the empty heap; no node belongs to two heaps; and memory
    holds no other node. *)
Definition repr (σ : machine) (s : store) (fp : addr → gset loc) : Prop :=
  (∀ this,
     match objs σ !! this with
     | Some p => tree_at (mem σ) p (root this s) (fp this)
     | None => root this s = nullptr ∧ fp this = ∅
     end) ∧
  (∀ a b, a ≠ b → fp a ## fp b) ∧
  (∀ l, l ∈ dom (mem σ) ↔ ∃ this, l ∈ fp this).

Definition represents (σ : machine) (s : store) : Prop := ∃ fp, repr σ s fp.

(** An allocator: the least address not in use. *)
Definition first_free (m : memory) : loc := fresh (dom m : gset loc).

(** The machine before the program starts: no node, no object. *)
Definition boot : machine := Machine ∅ ∅.

(** A program and the states it leads to, for the examples. *)
Definition ex_calls : list pcall :=
  [Call (Construct 1%nat); Call (Construct 2%nat);
   Call (Insert 1%nat 10); Call (Insert 1%nat 5); Call (Insert 2%nat 7);
   Call (Insert 1%nat 20)].

Definition ex_machine : machine :=
  match run_ptr first_free 10 ex_calls boot with
  | Ok _ σ => σ
  | _ => boot
  end.

Definition ex_store : store := run (abs <$> ex_calls) ∅.

(** * Properties *)

Example merge_ex1 :
  merge (new_Node 10) (new_Node 5) = mkNode 5 0 (new_Node 10) nullptr.
Proof. reflexivity. Qed.

Example scenario_A :
  let s := insert_all 1%nat [10; 5; 20] ∅ in
  (getMin 1%nat s).1 = Return 5 ∧
  (drain 3 1%nat s) = Some (Return [5; 10; 20], <[1%nat := nullptr]> s).
Proof. vm_compute. split; reflexivity. Qed.

(** ** Equations of [merge] *)

Lemma merge_unwind_eq k n l r merged :
  merge_unwind (mkNode k n l r) merged =
  if getNPL l <? getNPL merged
  then mkNode k (getNPL l + 1) merged l
  else mkNode k (getNPL merged + 1) l merged.
Proof. unfold merge_unwind; simpl. by destruct (getNPL l <? getNPL merged). Qed.

Lemma merge_nullptr_l h2 : merge nullptr h2 = h2.
Proof. by simp merge. Qed.

Lemma merge_nullptr_r h1 : merge h1 nullptr = h1.
Proof. destruct h1; by simp merge. Qed.

Lemma merge_nodes k1 n1 l1 r1 k2 n2 l2 r2 :
  merge (mkNode k1 n1 l1 r1) (mkNode k2 n2 l2 r2) =
  if k1 >? k2
  then merge_unwind (mkNode k2 n2 l2 r2) (merge r2 (mkNode k1 n1 l1 r1))
  else merge_unwind (mkNode k1 n1 l1 r1) (merge r1 (mkNode k2 n2 l2 r2)).
Proof. by simp merge. Qed.

(** ** Contents *)

Lemma keys_merge_unwind k n l r merged :
  keys (merge_unwind (mkNode k n l r) merged) = {[+ k +]} ⊎ keys l ⊎ keys merged.
Proof.
  rewrite merge_unwind_eq. destruct (_ <? _); simpl; multiset_solver.
Qed.

Lemma keys_merge h1 h2 : keys (merge h1 h2) = keys h1 ⊎ keys h2.
Proof.
  funelim (merge h1 h2); simp merge.
  - simpl. multiset_solver.
  - simpl. multiset_solver.
  - destruct (k1 >? k2); rewrite keys_merge_unwind.
    + rewrite H. simpl. multiset_solver.
    + rewrite H0. simpl. multiset_solver.
Qed.

Lemma size_keys t : size (keys t) = count t.
Proof.
  induction t as [|k n l IHl r IHr]; simpl.
  - reflexivity.
  - rewrite !gmultiset_size_disj_union, gmultiset_size_singleton. lia.
Qed.

Lemma count_merge h1 h2 : count (merge h1 h2) = (count h1 + count h2)%nat.
Proof. by rewrite <- !size_keys, keys_merge, gmultiset_size_disj_union. Qed.

Lemma keys_empty_iff t : keys t = ∅ ↔ t = nullptr.
Proof.
  split; [|by intros ->]. destruct t; [done|]. simpl. multiset_solver.
Qed.

(** ** The invariants, node by node and recursively *)

Lemma heap_ordered_node k n l r :
  heap_ordered (mkNode k n l r) ↔
  key_le_child k l ∧ key_le_child k r ∧ heap_ordered l ∧ heap_ordered r.
Proof.
  unfold heap_ordered; simpl. rewrite Forall_cons, Forall_app; simpl. tauto.
Qed.

Lemma leftist_node k n l r :
  leftist (mkNode k n l r) ↔
  NPL r ≤ NPL l ∧ n = NPL r + 1 ∧ leftist l ∧ leftist r.
Proof.
  unfold leftist; simpl. rewrite Forall_cons, Forall_app; simpl. tauto.
Qed.

Lemma heap_ordered_nullptr : heap_ordered nullptr.
Proof. constructor. Qed.

Lemma leftist_nullptr : leftist nullptr.
Proof. constructor. Qed.

Lemma leftist_heap_nullptr : leftist_heap nullptr.
Proof. split; constructor. Qed.

Lemma leftist_heap_new_Node k : leftist_heap (new_Node k).
Proof.
  split; [apply heap_ordered_node | apply leftist_node]; simpl;
    repeat split; (lia || constructor).
Qed.

(** In a leftist tree the stored field is the null path length. *)
Lemma getNPL_NPL t : leftist t → getNPL t = NPL t.
Proof.
  destruct t as [|k n l r]; [done|].
  rewrite leftist_node; simpl. lia.
Qed.

Lemma NPL_lower_bound t : -1 ≤ NPL t.
Proof. induction t; simpl; lia. Qed.

(** A leftist tree whose root has null path length [p] has at least
    [2 ^ (p + 1) - 1] nodes, so the [npl] field of a heap of [n] nodes is
    below [log2 (n + 1)] and the increment in [merge] stays far from the
    range of [int]. *)
Lemma size_lower_bound t :
  leftist t → 2 ^ (NPL t + 1) - 1 ≤ Z.of_nat (count t).
Proof.
  induction t as [|k n l IHl r IHr]; [done|].
  intros (Hle & _ & Hl & Hr)%leftist_node. simpl NPL. simpl count.
  specialize (IHl Hl). specialize (IHr Hr).
  pose proof (NPL_lower_bound r).
  rewrite Z.min_r by done.
  replace (1 + NPL r + 1) with (Z.succ (NPL r + 1)) by lia.
  rewrite Z.pow_succ_r by lia.
  assert (2 ^ (NPL r + 1) ≤ 2 ^ (NPL l + 1)) by (apply Z.pow_le_mono_r; lia).
  lia.
Qed.

Lemma getNPL_log2 t :
  leftist t → 2 ^ (getNPL t + 1) ≤ Z.of_nat (count t) + 1.
Proof.
  intros Hl. rewrite getNPL_NPL by done. pose proof (size_lower_bound t Hl). lia.
Qed.

(** ** [merge] keeps the invariants *)

Lemma key_le_child_merge_unwind k k' n l r merged :
  key_le_child k (merge_unwind (mkNode k' n l r) merged) ↔ k ≤ k'.
Proof. rewrite merge_unwind_eq. by destruct (_ <? _). Qed.

Lemma key_le_child_merge k h1 h2 :
  key_le_child k h1 → key_le_child k h2 → key_le_child k (merge h1 h2).
Proof.
  destruct h1 as [|k1 n1 l1 r1]; [by rewrite merge_nullptr_l|].
  destruct h2 as [|k2 n2 l2 r2]; [by rewrite merge_nullptr_r|].
  rewrite merge_nodes. simpl; intros ? ?.
  destruct (k1 >? k2); by apply key_le_child_merge_unwind.
Qed.

Lemma heap_ordered_merge_unwind k n l r merged :
  key_le_child k l → key_le_child k merged →
  heap_ordered l → heap_ordered merged →
  heap_ordered (merge_unwind (mkNode k n l r) merged).
Proof.
  intros. rewrite merge_unwind_eq.
  destruct (_ <? _); apply heap_ordered_node; tauto.
Qed.

Lemma heap_ordered_merge h1 h2 :
  heap_ordered h1 → heap_ordered h2 → heap_ordered (merge h1 h2).
Proof.
  funelim (merge h1 h2); simp merge; [done..|].
  intros [? [? [? ?]]]%heap_ordered_node [? [? [? ?]]]%heap_ordered_node.
  destruct (k1 >? k2) eqn:Hk.
  - apply heap_ordered_merge_unwind; [done| |done|].
    + apply key_le_child_merge; [done|]. simpl. lia.
    + apply H; [done|]. by apply heap_ordered_node.
  - apply heap_ordered_merge_unwind; [done| |done|].
    + apply key_le_child_merge; [done|]. simpl. lia.
    + apply H0; [done|]. by apply heap_ordered_node.
Qed.

Lemma leftist_merge_unwind k n l r merged :
  leftist l → leftist merged →
  leftist (merge_unwind (mkNode k n l r) merged).
Proof.
  intros Hl Hm. rewrite merge_unwind_eq.
  rewrite (getNPL_NPL l), (getNPL_NPL merged) by done.
  destruct (NPL l <? NPL merged) eqn:Hlt; apply leftist_node;
    repeat split; (done || lia).
Qed.

Lemma leftist_merge h1 h2 :
  leftist h1 → leftist h2 → leftist (merge h1 h2).
Proof.
  funelim (merge h1 h2); simp merge; [done..|].
  intros Hl1 Hl2.
  pose proof Hl1 as (_ & _ & ? & ?)%leftist_node.
  pose proof Hl2 as (_ & _ & ? & ?)%leftist_node.
  destruct (k1 >? k2); apply leftist_merge_unwind; auto.
Qed.

Lemma leftist_heap_merge h1 h2 :
  leftist_heap h1 → leftist_heap h2 → leftist_heap (merge h1 h2).
Proof.
  intros [? ?] [? ?]. split; [by apply heap_ordered_merge | by apply leftist_merge].
Qed.

(** ** The store *)

Lemma root_update_eq this t (s : store) : root this (<[this := t]> s) = t.
Proof. apply lookup_total_insert_eq. Qed.

Lemma root_update_ne this other t (s : store) :
  this ≠ other → root other (<[this := t]> s) = root other s.
Proof. apply lookup_total_insert_ne. Qed.

Lemma root_empty_store this : root this ∅ = nullptr.
Proof. unfold root. by rewrite lookup_total_empty. Qed.

Lemma isEmpty_true this s : isEmpty this s = true ↔ root this s = nullptr.
Proof. unfold isEmpty. apply bool_decide_eq_true. Qed.

Lemma isEmpty_false this s : isEmpty this s = false ↔ root this s ≠ nullptr.
Proof. unfold isEmpty. apply bool_decide_eq_false. Qed.

(** ** The minimum of a heap-ordered tree is at its root *)

Lemma heap_ordered_lower_bound k t x :
  key_le_child k t → heap_ordered t → x ∈ keys t → k ≤ x.
Proof.
  revert k. induction t as [|k' n l IHl r IHr]; intros k Hk Ho; simpl.
  - multiset_solver.
  - apply heap_ordered_node in Ho as (Hl & Hr & Hol & Hor). simpl in Hk.
    rewrite !gmultiset_elem_of_disj_union, gmultiset_elem_of_singleton.
    intros [[->|Hx]|Hx]; [done| |].
    + specialize (IHl k' Hl Hol Hx). lia.
    + specialize (IHr k' Hr Hor Hx). lia.
Qed.

Lemma heap_ordered_root_min t x :
  heap_ordered t → x ∈ keys t → key t ≤ x.
Proof.
  intros Ho. apply heap_ordered_lower_bound; [|done].
  destruct t; simpl; [done|lia].
Qed.

(** ** merge *)

(** C2. For leftist-heap-ordered trees [h1] and [h2], either of which may
    be [nullptr], [merge h1 h2] is leftist-heap-ordered and its keys are
    the multiset union of the keys of [h1] and [h2]: duplicates are
    kept and nothing is lost, so the node count is the sum of the two. *)
Theorem merge_correct h1 h2 :
  leftist_heap h1 → leftist_heap h2 →
  leftist_heap (merge h1 h2) ∧
  keys (merge h1 h2) = keys h1 ⊎ keys h2 ∧
  count (merge h1 h2) = (count h1 + count h2)%nat.
Proof.
  intros H1 H2. split; [by apply leftist_heap_merge|].
  split; [apply keys_merge | apply count_merge].
Qed.

Lemma merge_correct_witness :
  let h1 := mkNode 5 1 (new_Node 10) (new_Node 20) in
  let h2 := mkNode 5 0 (new_Node 8) nullptr in
  leftist_heap h1 ∧ leftist_heap h2 ∧
  leftist_heap (merge h1 h2) ∧
  keys (merge h1 h2) = keys h1 ⊎ keys h2 ∧
  count (merge h1 h2) = (count h1 + count h2)%nat.
Proof.
  intros h1 h2.
  assert (H1 : leftist_heap h1) by by_evaluation.
  assert (H2 : leftist_heap h2) by by_evaluation.
  exact (conj H1 (conj H2 (merge_correct h1 h2 H1 H2))).
Defined.

(** ** insert *)

(** C8. [insert] never throws; the new root is [merge] of the old root
    and a fresh node with key [k], npl 0 and no children; the keys of the
    heap gain one occurrence of [k], the count grows by one, and no
    other heap changes. *)
Theorem insert_correct this k s :
  insert this k s =
    (Return (), <[this := merge (root this s) (mkNode k 0 nullptr nullptr)]> s) ∧
  keys (root this (insert this k s).2) = keys (root this s) ⊎ {[+ k +]} ∧
  count (root this (insert this k s).2) = S (count (root this s)) ∧
  ∀ other, other ≠ this →
    root other (insert this k s).2 = root other s.
Proof.
  unfold insert; simpl. rewrite root_update_eq.
  split; [done|]. split; [|split].
  - rewrite keys_merge. simpl. multiset_solver.
  - rewrite count_merge. simpl. lia.
  - intros other Hne. by apply root_update_ne.
Qed.

Lemma insert_correct_witness :
  let s : store := (insert 1%nat 10 ∅).2 in
  2%nat ≠ 1%nat ∧
  insert 1%nat 5 s =
    (Return (), <[1%nat := mkNode 5 0 (new_Node 10) nullptr]> s) ∧
  keys (root 1%nat (insert 1%nat 5 s).2) = {[+ 10; 5 +]} ∧
  count (root 1%nat (insert 1%nat 5 s).2) = 2%nat ∧
  root 2%nat (insert 1%nat 5 s).2 = root 2%nat s.
Proof.
  intros s.
  assert (H : 2%nat ≠ 1%nat) by lia.
  destruct (insert_correct 1%nat 5 s) as (Heq & Hkeys & Hcount & Hframe).
  exact (conj H (conj Heq (conj Hkeys (conj Hcount (Hframe 2%nat H))))).
Defined.

Lemma insert_all_run this ks s :
  insert_all this ks s = run (Insert this <$> ks) s.
Proof. revert s. induction ks as [|k ks IH]; intros s; simpl; [done|apply IH]. Qed.

(** ** getMin and extractMin *)

(** C5. On an empty heap [getMin] and [extractMin] throw a
    [runtime_error] (no key is returned) and the store after the call is
    the store before it, so the heap is still empty; on a non-empty
    heap [getMin] returns the key of the root and leaves the store as it
    was. *)
Theorem empty_heap_throws this s :
  (isEmpty this s = true →
     getMin this s = (Throw (runtime_error "Heap is empty!"), s) ∧
     extractMin this s =
       (Throw (runtime_error "Heap is empty! Cannot extract min."), s) ∧
     isEmpty this (getMin this s).2 = true ∧
     isEmpty this (extractMin this s).2 = true) ∧
  (isEmpty this s = false →
     getMin this s = (Return (key (root this s)), s)).
Proof.
  unfold getMin, extractMin. split; intros H; rewrite H; simpl; auto.
Qed.

Lemma empty_heap_throws_witness :
  let s : store := insert_all 2%nat [7; 3] ∅ in
  (isEmpty 1%nat s = true ∧
   getMin 1%nat s = (Throw (runtime_error "Heap is empty!"), s) ∧
   extractMin 1%nat s =
     (Throw (runtime_error "Heap is empty! Cannot extract min."), s)) ∧
  (isEmpty 2%nat s = false ∧ getMin 2%nat s = (Return 3, s)).
Proof.
  intros s. split.
  - assert (H : isEmpty 1%nat s = true) by by_evaluation.
    destruct (proj1 (empty_heap_throws 1%nat s) H) as (Hg & He & _).
    exact (conj H (conj Hg He)).
  - assert (H : isEmpty 2%nat s = false) by by_evaluation.
    exact (conj H (proj2 (empty_heap_throws 2%nat s) H)).
Defined.

Lemma extractMin_heap_ordered this s :
  isEmpty this s = false → heap_ordered (root this s) →
  ∃ minKey s',
    extractMin this s = (Return minKey, s') ∧
    minKey ∈ keys (root this s) ∧
    (∀ x, x ∈ keys (root this s) → minKey ≤ x) ∧
    keys (root this s') = keys (root this s) ∖ {[+ minKey +]} ∧
    S (count (root this s')) = count (root this s) ∧
    ∀ other, other ≠ this → root other s' = root other s.
Proof.
  intros Hne Ho. unfold extractMin. rewrite Hne.
  apply isEmpty_false in Hne.
  destruct (root this s) as [|k n l r] eqn:Hroot; [done|]. simpl.
  eexists _, _. split; [done|]. rewrite root_update_eq.
  split; [multiset_solver|]. split; [|split; [|split]].
  - intros x Hx. by apply (heap_ordered_root_min (mkNode k n l r)).
  - rewrite keys_merge. multiset_solver.
  - rewrite count_merge. lia.
  - intros other Hother. by apply root_update_ne.
Qed.

(** ** mergeWith *)

(** C6. For two distinct heaps, [mergeWith] does not throw; afterwards
    the receiver holds the multiset union of the two heaps and its count
    is the sum of the two counts, the other heap has count zero and is
    an empty heap that can be used again (here: an [insert] into it gives
    the one-element heap), and no third heap changes. *)
Theorem mergeWith_distinct this otherTree s :
  this ≠ otherTree →
  ∃ s',
    mergeWith this otherTree s = (Return (), s') ∧
    root this s' = merge (root this s) (root otherTree s) ∧
    keys (root this s') = keys (root this s) ⊎ keys (root otherTree s) ∧
    count (root this s') =
      (count (root this s) + count (root otherTree s))%nat ∧
    count (root otherTree s') = 0%nat ∧
    isEmpty otherTree s' = true ∧
    leftist_heap (root otherTree s') ∧
    (∀ k, root otherTree (insert otherTree k s').2 = new_Node k) ∧
    ∀ h, h ≠ this → h ≠ otherTree → root h s' = root h s.
Proof.
  intros Hne. unfold mergeWith. rewrite decide_False by done. simpl.
  eexists. split; [done|].
  rewrite root_update_eq, root_update_ne, root_update_eq by done.
  repeat split.
  - apply keys_merge.
  - apply count_merge.
  - apply isEmpty_true, root_update_eq.
  - constructor.
  - constructor.
  - intros k. unfold insert; simpl.
    by rewrite root_update_eq, merge_nullptr_l.
  - intros h H1 H2. by rewrite !root_update_ne.
Qed.

Lemma mergeWith_distinct_witness :
  let s : store :=
    insert_all 2%nat [15; 8; 25] (insert_all 1%nat [10; 20; 5] ∅) in
  1%nat ≠ 2%nat ∧
  ∃ s',
    mergeWith 1%nat 2%nat s = (Return (), s') ∧
    root 1%nat s' = merge (root 1%nat s) (root 2%nat s) ∧
    keys (root 1%nat s') = keys (root 1%nat s) ⊎ keys (root 2%nat s) ∧
    count (root 1%nat s') =
      (count (root 1%nat s) + count (root 2%nat s))%nat ∧
    count (root 2%nat s') = 0%nat ∧
    isEmpty 2%nat s' = true ∧
    leftist_heap (root 2%nat s') ∧
    (∀ k, root 2%nat (insert 2%nat k s').2 = new_Node k) ∧
    ∀ h, h ≠ 1%nat → h ≠ 2%nat → root h s' = root h s.
Proof.
  intros s.
  assert (H : 1%nat ≠ 2%nat) by lia.
  exact (conj H (mergeWith_distinct 1%nat 2%nat s H)).
Defined.

(** C7. [h.mergeWith(h)] returns at the address test: it does not throw,
    the store after the call is the store before it, and so draining
    the heap gives what it would have given before the call. *)
Theorem mergeWith_self this s :
  mergeWith this this s = (Return (), s) ∧
  (mergeWith this this s).2 = s ∧
  ∀ fuel, drain fuel this (mergeWith this this s).2 = drain fuel this s.
Proof.
  unfold mergeWith. rewrite decide_True by done. done.
Qed.

(** ** Invariants of reachable stores *)

Lemma leftist_heap_node k n l r :
  leftist_heap (mkNode k n l r) → leftist_heap l ∧ leftist_heap r.
Proof.
  intros [(_ & _ & ? & ?)%heap_ordered_node (_ & _ & ? & ?)%leftist_node].
  by repeat split.
Qed.

Lemma store_inv_update this t s :
  store_inv s → leftist_heap t → store_inv (<[this := t]> s).
Proof.
  intros Hs Ht h. destruct (decide (this = h)) as [->|Hne].
  - by rewrite root_update_eq.
  - rewrite root_update_ne by done. apply Hs.
Qed.

Lemma store_inv_empty : store_inv ∅.
Proof. intros h. rewrite root_empty_store. apply leftist_heap_nullptr. Qed.

Lemma store_inv_exec c s : store_inv s → store_inv (exec c s).
Proof.
  intros Hs. destruct c as [this|this|this k|this|this|this otherTree]; simpl.
  - apply store_inv_update; [done|apply leftist_heap_nullptr].
  - done.
  - apply store_inv_update; [done|].
    apply leftist_heap_merge; [apply Hs|apply leftist_heap_new_Node].
  - unfold getMin. by destruct (isEmpty this s).
  - unfold extractMin. destruct (isEmpty this s); [done|]. simpl.
    apply store_inv_update; [done|].
    pose proof (Hs this) as Hroot.
    destruct (root this s) as [|k n l r]; simpl.
    + rewrite merge_nullptr_l. apply leftist_heap_nullptr.
    + apply leftist_heap_node in Hroot as [? ?]. by apply leftist_heap_merge.
  - unfold mergeWith. destruct (decide (this = otherTree)); [done|]. simpl.
    apply store_inv_update; [|apply leftist_heap_nullptr].
    apply store_inv_update; [done|]. apply leftist_heap_merge; apply Hs.
Qed.

Lemma store_inv_run cs s : store_inv s → store_inv (run cs s).
Proof.
  revert s. induction cs as [|c cs IH]; intros s Hs; simpl; [done|].
  by apply IH, store_inv_exec.
Qed.

Lemma store_inv_reachable s : reachable s → store_inv s.
Proof. intros [cs ->]. apply store_inv_run, store_inv_empty. Qed.

(** C4. On every non-empty heap of a reachable store [extractMin]
    returns, without an exception, a key of the heap that is at most
    every key the heap held; the keys left are the old keys minus one
    occurrence of the returned key, the count drops by exactly one, and
    no other heap changes. *)
Theorem extractMin_correct this s :
  reachable s → isEmpty this s = false →
  ∃ minKey s',
    extractMin this s = (Return minKey, s') ∧
    minKey ∈ keys (root this s) ∧
    (∀ x, x ∈ keys (root this s) → minKey ≤ x) ∧
    keys (root this s') = keys (root this s) ∖ {[+ minKey +]} ∧
    S (count (root this s')) = count (root this s) ∧
    ∀ other, other ≠ this → root other s' = root other s.
Proof.
  intros Hs Hne. apply extractMin_heap_ordered; [done|].
  apply (store_inv_reachable s Hs this).
Qed.

Lemma extractMin_correct_witness :
  let s : store :=
    run [Insert 1%nat 10; Insert 1%nat 5; Insert 1%nat 20; Insert 1%nat 5] ∅ in
  reachable s ∧ isEmpty 1%nat s = false ∧
  ∃ minKey s',
    extractMin 1%nat s = (Return minKey, s') ∧
    minKey ∈ keys (root 1%nat s) ∧
    (∀ x, x ∈ keys (root 1%nat s) → minKey ≤ x) ∧
    keys (root 1%nat s') = keys (root 1%nat s) ∖ {[+ minKey +]} ∧
    S (count (root 1%nat s')) = count (root 1%nat s) ∧
    ∀ other, other ≠ 1%nat → root other s' = root other s.
Proof.
  intros s.
  assert (H1 : reachable s) by (eexists; reflexivity).
  assert (H2 : isEmpty 1%nat s = false) by by_evaluation.
  exact (conj H1 (conj H2 (extractMin_correct 1%nat s H1 H2))).
Defined.

Example extractMin_ex :
  let s : store :=
    run [Insert 1%nat 10; Insert 1%nat 5; Insert 1%nat 20; Insert 1%nat 5] ∅ in
  (extractMin 1%nat s).1 = Return 5 ∧
  keys (root 1%nat (extractMin 1%nat s).2) = {[+ 5; 10; 20 +]}.
Proof. split; by_evaluation. Qed.

(** A property of all the nodes of a tree holds of all the nodes of
    each of its subtrees. *)
Lemma Forall_nodes_subtree (P : Node → Prop) t x :
  Forall P (nodes t) → x ∈ nodes t → Forall P (nodes x).
Proof.
  induction t as [|k n l IHl r IHr]; simpl; intros Ht Hx.
  - by apply elem_of_nil in Hx.
  - apply elem_of_cons in Hx as [->|Hx]; [done|].
    apply Forall_cons in Ht as [_ [Hl Hr]%Forall_app].
    apply elem_of_app in Hx as [Hx|Hx]; auto.
Qed.

(** C3. In every store reached from the empty store by calls of the
    public methods ([insert], [extractMin], [mergeWith], and the
    constructor, [isEmpty] and [getMin]), every node of every heap has a
    key at most the key of each present child, satisfies
    NPL(left) ≥ NPL(right), and stores NPL(right) + 1 in its [npl] field,
    where NPL of an absent child is -1.  The same two facts hold when
    NPL is read from the stored fields with [getNPL]. *)
Theorem reachable_invariants s this k n l r :
  reachable s → mkNode k n l r ∈ nodes (root this s) →
  key_le_child k l ∧ key_le_child k r ∧
  NPL r ≤ NPL l ∧ n = NPL r + 1 ∧
  getNPL r ≤ getNPL l ∧ n = getNPL r + 1 ∧
  NPL nullptr = -1.
Proof.
  intros Hs Hin. destruct (store_inv_reachable s Hs this) as [Ho Hl].
  pose proof (Forall_nodes_subtree _ _ _ Ho Hin) as Ho'.
  pose proof (Forall_nodes_subtree _ _ _ Hl Hin) as Hl'.
  apply heap_ordered_node in Ho' as (? & ? & _ & _).
  apply leftist_node in Hl' as (? & ? & ? & ?).
  rewrite !getNPL_NPL by done. by repeat split.
Qed.

Lemma reachable_invariants_witness :
  let s : store :=
    run [Insert 1%nat 10; Insert 1%nat 5; Insert 2%nat 7; Insert 2%nat 5;
         MergeWith 1%nat 2%nat; ExtractMin 1%nat; Insert 1%nat 20;
         MergeWith 1%nat 1%nat] ∅ in
  let l := new_Node 7 in
  let r := mkNode 10 0 (new_Node 20) nullptr in
  reachable s ∧ mkNode 5 1 l r ∈ nodes (root 1%nat s) ∧
  key_le_child 5 l ∧ key_le_child 5 r ∧
  NPL r ≤ NPL l ∧ 1 = NPL r + 1 ∧
  getNPL r ≤ getNPL l ∧ 1 = getNPL r + 1 ∧
  NPL nullptr = -1.
Proof.
  intros s l r.
  assert (H1 : reachable s) by (eexists; reflexivity).
  assert (H2 : mkNode 5 1 l r ∈ nodes (root 1%nat s)) by by_evaluation.
  exact (conj H1 (conj H2 (reachable_invariants s 1%nat 5 1 l r H1 H2))).
Defined.

(** ** Termination of merge *)

Lemma merge_fuel_enough fuel h1 h2 :
  (rspine h1 + rspine h2 ≤ fuel)%nat →
  merge_fuel fuel h1 h2 = Some (merge h1 h2).
Proof.
  revert h1 h2. induction fuel as [|fuel IH];
    intros [|k1 n1 l1 r1] [|k2 n2 l2 r2] Hfuel; simpl in *;
    rewrite ?merge_nullptr_l, ?merge_nullptr_r; try done; try lia.
  rewrite merge_nodes.
  destruct (k1 >? k2); rewrite IH by (simpl; lia); done.
Qed.

(** The recursive call of [merge]: on the right child of one of the two
    roots and the whole other tree, so that the two right spines
    together lose exactly one node. *)
Lemma merge_descends h1 h2 :
  h1 ≠ nullptr → h2 ≠ nullptr →
  ∃ small big,
    (small = h1 ∧ big = h2 ∨ small = h2 ∧ big = h1) ∧
    merge h1 h2 = merge_unwind small (merge (right small) big) ∧
    S (rspine (right small) + rspine big) = (rspine h1 + rspine h2)%nat.
Proof.
  destruct h1 as [|k1 n1 l1 r1]; [done|].
  destruct h2 as [|k2 n2 l2 r2]; [done|]. intros _ _.
  rewrite merge_nodes. destruct (k1 >? k2).
  - eexists _, _. split; [by right|]. split; [done|]. simpl. lia.
  - eexists _, _. split; [by left|]. split; [done|]. simpl. lia.
Qed.

(** C9. [merge] terminates on every pair of trees: run with a bound on
    the depth of its recursion, it returns the value of [merge] whenever
    the bound is at least the sum of the lengths of the two right
    spines; and on two non-empty trees its one recursive call takes the
    right child of one root and the whole other tree, which shortens the
    two right spines together by exactly one node.  ([merge] itself is
    defined by well-founded recursion on that sum.) *)
Theorem merge_terminates h1 h2 :
  (∀ fuel, (rspine h1 + rspine h2 ≤ fuel)%nat →
     merge_fuel fuel h1 h2 = Some (merge h1 h2)) ∧
  (h1 ≠ nullptr → h2 ≠ nullptr →
   ∃ small big,
     (small = h1 ∧ big = h2 ∨ small = h2 ∧ big = h1) ∧
     merge h1 h2 = merge_unwind small (merge (right small) big) ∧
     S (rspine (right small) + rspine big) = (rspine h1 + rspine h2)%nat).
Proof.
  split; [intros fuel; apply merge_fuel_enough | apply merge_descends].
Qed.

Lemma merge_terminates_witness :
  let h1 := mkNode 5 1 (new_Node 10) (new_Node 20) in
  let h2 := mkNode 8 0 (new_Node 15) nullptr in
  (rspine h1 + rspine h2 ≤ 3)%nat ∧ h1 ≠ nullptr ∧ h2 ≠ nullptr ∧
  merge_fuel 3 h1 h2 = Some (merge h1 h2) ∧
  ∃ small big,
    (small = h1 ∧ big = h2 ∨ small = h2 ∧ big = h1) ∧
    merge h1 h2 = merge_unwind small (merge (right small) big) ∧
    S (rspine (right small) + rspine big) = (rspine h1 + rspine h2)%nat.
Proof.
  intros h1 h2.
  assert (H1 : (rspine h1 + rspine h2 ≤ 3)%nat) by (vm_compute; lia).
  assert (H2 : h1 ≠ nullptr) by discriminate.
  assert (H3 : h2 ≠ nullptr) by discriminate.
  exact (conj H1 (conj H2 (conj H3
           (conj (proj1 (merge_terminates h1 h2) 3%nat H1)
                 (proj2 (merge_terminates h1 h2) H2 H3))))).
Defined.

(** The depth can exceed the shorter of the two right spines: a single
    node merged below a right spine of three nodes takes three nested
    calls. *)
Example merge_depth_ex :
  let h1 := new_Node 10 in
  let h2 := mkNode 1 2 (mkNode 2 1 (new_Node 4) (new_Node 5))
                       (mkNode 3 1 (new_Node 6) (new_Node 7)) in
  leftist_heap h2 ∧ rspine h1 = 1%nat ∧ rspine h2 = 3%nat ∧
  merge_fuel 2 h1 h2 = None ∧
  merge_fuel 3 h1 h2 = Some (merge h1 h2).
Proof. repeat split; by_evaluation. Qed.

(** ** Tie-break of merge *)

(** C10. [merge] is a function of its two arguments, and on two
    non-empty trees the root it keeps is fixed by the keys: the root of
    the first argument when its key is at most the key of the second
    root, equal keys included, and the root of the second argument only
    when the first key is strictly greater.  The kept root receives the
    merge of its right child with the other tree. *)
Theorem merge_tie_break k1 n1 l1 r1 k2 n2 l2 r2 :
  let h1 := mkNode k1 n1 l1 r1 in
  let h2 := mkNode k2 n2 l2 r2 in
  (k1 ≤ k2 → merge h1 h2 = merge_unwind h1 (merge r1 h2)) ∧
  (k1 > k2 → merge h1 h2 = merge_unwind h2 (merge r2 h1)) ∧
  (k1 = k2 → key (merge h1 h2) = k1 ∧
     (left (merge h1 h2) = l1 ∨ right (merge h1 h2) = l1)) ∧
  (∀ h1' h2', h1' = h1 → h2' = h2 → merge h1' h2' = merge h1 h2).
Proof.
  intros h1 h2. unfold h1, h2. rewrite merge_nodes.
  split; [|split; [|split]].
  - intros Hk. destruct (Z.gtb_spec k1 k2); [lia|done].
  - intros Hk. destruct (Z.gtb_spec k1 k2); [done|lia].
  - intros ->. rewrite Z.gtb_ltb, Z.ltb_irrefl, merge_unwind_eq.
    destruct (_ <? _); simpl; auto.
  - by intros h1' h2' -> ->; rewrite merge_nodes.
Qed.

Lemma merge_tie_break_witness :
  let h1 := mkNode 1 0 nullptr nullptr in
  let h2 := mkNode 1 0 (new_Node 2) nullptr in
  1 ≤ 1 ∧ 1 = 1 ∧
  merge h1 h2 = merge_unwind h1 (merge nullptr h2) ∧
  key (merge h1 h2) = 1 ∧
  (left (merge h1 h2) = nullptr ∨ right (merge h1 h2) = nullptr).
Proof.
  intros h1 h2.
  assert (H1 : 1 ≤ 1) by lia.
  assert (H2 : 1 = 1) by reflexivity.
  pose proof (merge_tie_break 1 0 nullptr nullptr 1 0 (new_Node 2) nullptr)
    as (Hle & _ & Heq & _).
  destruct (Heq H2) as [Hkey Hchild].
  exact (conj H1 (conj H2 (conj (Hle H1) (conj Hkey Hchild)))).
Defined.

(** With equal root keys the order of the arguments shows in the
    result. *)
Example tie_break_observable :
  let a := new_Node 1 in
  let b := mkNode 1 0 (new_Node 2) nullptr in
  merge a b = mkNode 1 0 b nullptr ∧
  merge b a = mkNode 1 1 (new_Node 2) a.
Proof. split; reflexivity. Qed.

(** ** Sorted extraction *)

Lemma elements_list_to_set_disj (l : list Z) :
  elements (list_to_set_disj l : gmultiset Z) ≡ₚ l.
Proof.
  induction l as [|x l IH]; simpl.
  - by rewrite gmultiset_elements_empty.
  - by rewrite gmultiset_elements_disj_union, gmultiset_elements_singleton, IH.
Qed.

Lemma list_to_set_disj_inj (l1 l2 : list Z) :
  list_to_set_disj l1 =@{gmultiset Z} list_to_set_disj l2 → l1 ≡ₚ l2.
Proof.
  intros H. rewrite <- (elements_list_to_set_disj l1), H.
  apply elements_list_to_set_disj.
Qed.

Lemma insert_all_root this ks s :
  heap_ordered (root this s) →
  heap_ordered (root this (insert_all this ks s)) ∧
  keys (root this (insert_all this ks s)) =
    keys (root this s) ⊎ list_to_set_disj ks.
Proof.
  revert s. induction ks as [|k ks IH]; intros s Hs; simpl.
  - split; [done|multiset_solver].
  - destruct (IH (<[this:=merge (root this s) (new_Node k)]> s)) as [Ho Hk].
    + rewrite root_update_eq. apply heap_ordered_merge; [done|].
      apply leftist_heap_new_Node.
    + split; [done|]. rewrite Hk, root_update_eq, keys_merge. simpl.
      clear. multiset_solver.
Qed.

Lemma drain_mono fuel fuel' this s out s' :
  (fuel ≤ fuel')%nat →
  drain fuel this s = Some (Return out, s') →
  drain fuel' this s = Some (Return out, s').
Proof.
  revert fuel' s out. induction fuel as [|fuel IH]; intros fuel' s out Hle; simpl.
  - destruct (isEmpty this s) eqn:E; [|done].
    destruct fuel'; simpl; by rewrite E.
  - destruct fuel' as [|fuel']; [lia|]. simpl.
    destruct (isEmpty this s); [done|].
    destruct (extractMin this s) as [[k|e] s1]; [|done].
    destruct (drain fuel this s1) as [[[out1|e] s2]|] eqn:Hd; [|done..].
    intros [= <- <-]. by rewrite (IH fuel' s1 out1) by (done || lia).
Qed.

Lemma drain_heap_ordered this fuel s :
  heap_ordered (root this s) → (count (root this s) ≤ fuel)%nat →
  ∃ out s',
    drain fuel this s = Some (Return out, s') ∧
    isEmpty this s' = true ∧
    StronglySorted Z.le out ∧
    list_to_set_disj out = keys (root this s).
Proof.
  revert s. induction fuel as [|fuel IH]; intros s Ho Hc; simpl.
  - destruct (isEmpty this s) eqn:E.
    + exists [], s. apply isEmpty_true in E as E'. rewrite E'.
      repeat split; [done|constructor].
    + apply isEmpty_false in E. destruct (root this s); [done|simpl in Hc; lia].
  - destruct (isEmpty this s) eqn:E.
    + exists [], s. apply isEmpty_true in E as E'. rewrite E'.
      repeat split; [done|constructor].
    + unfold extractMin. rewrite E. apply isEmpty_false in E.
      destruct (root this s) as [|k n l r] eqn:Hroot; [done|]. simpl in *.
      pose proof Ho as (_ & _ & Hl & Hr)%heap_ordered_node.
      destruct (IH (<[this:=merge l r]> s)) as (out & s' & Hd & He & Hs & Hk).
      * rewrite root_update_eq. by apply heap_ordered_merge.
      * rewrite root_update_eq, count_merge. lia.
      * rewrite Hd. exists (k :: out), s'.
        rewrite root_update_eq, keys_merge in Hk.
        split; [done|]. split; [done|]. split.
        -- constructor; [done|]. apply Forall_forall. intros x Hx.
           apply (heap_ordered_root_min (mkNode k n l r)); [done|].
           apply (elem_of_list_to_set_disj (A:=Z)) in Hx.
           rewrite Hk in Hx. simpl.
           rewrite <- (assoc_L (⊎)). apply gmultiset_elem_of_disj_union. by right.
        -- rewrite list_to_set_disj_cons, Hk. multiset_solver.
Qed.

(** C1. Insert the keys of any list, in the order of the list, into an
    empty heap and then call [extractMin] while [isEmpty] is false: the
    loop ends after at most one iteration per key, without an exception,
    with the heap empty, and the keys it collected are the keys of the
    list in non-decreasing order.  Any other order of insertion of the
    same keys gives the same sequence. *)
Theorem sorted_extraction this ks s :
  isEmpty this s = true →
  ∃ out s',
    (∀ fuel, (length ks ≤ fuel)%nat →
       drain fuel this (insert_all this ks s) = Some (Return out, s')) ∧
    isEmpty this s' = true ∧
    Sorted Z.le out ∧
    out ≡ₚ ks ∧
    ∀ ks', ks' ≡ₚ ks →
      ∃ s'', drain (length ks') this (insert_all this ks' s)
             = Some (Return out, s'').
Proof.
  intros He. apply isEmpty_true in He.
  assert (Hmain : ∀ l, ∃ out s',
            drain (length l) this (insert_all this l s) = Some (Return out, s') ∧
            isEmpty this s' = true ∧ Sorted Z.le out ∧ out ≡ₚ l).
  { intros l. destruct (insert_all_root this l s) as [Ho Hk].
    { rewrite He. apply heap_ordered_nullptr. }
    destruct (drain_heap_ordered this (length l) (insert_all this l s))
      as (out & s' & Hd & Hemp & Hs & Hout); [done| |].
    { rewrite <- size_keys, Hk, He. simpl.
      rewrite gmultiset_size_disj_union, gmultiset_size_empty. simpl.
      clear. induction l as [|x l IH]; simpl; [done|].
      rewrite gmultiset_size_disj_union, gmultiset_size_singleton. lia. }
    exists out, s'. repeat split; [done..| |].
    - by apply StronglySorted_Sorted.
    - apply list_to_set_disj_inj. rewrite Hout, Hk, He. simpl. multiset_solver. }
  destruct (Hmain ks) as (out & s' & Hd & Hemp & Hs & Hp).
  exists out, s'. split; [|split; [done|split; [done|split; [done|]]]].
  - intros fuel Hfuel. by apply (drain_mono (length ks)).
  - intros ks' Hperm.
    destruct (Hmain ks') as (out' & s'' & Hd' & _ & Hs' & Hp').
    exists s''. rewrite Hd'. do 3 f_equal.
    apply (Sorted_unique Z.le); [done..|]. by rewrite Hp', Hperm.
Qed.

Lemma sorted_extraction_witness :
  let s : store := insert_all 2%nat [4; 4] ∅ in
  isEmpty 1%nat s = true ∧
  ∃ out s',
    (∀ fuel, (length [10; 5; 20; 5] ≤ fuel)%nat →
       drain fuel 1%nat (insert_all 1%nat [10; 5; 20; 5] s)
       = Some (Return out, s')) ∧
    isEmpty 1%nat s' = true ∧
    Sorted Z.le out ∧
    out ≡ₚ [10; 5; 20; 5] ∧
    ∀ ks', ks' ≡ₚ [10; 5; 20; 5] →
      ∃ s'', drain (length ks') 1%nat (insert_all 1%nat ks' s)
             = Some (Return out, s'').
Proof.
  intros s.
  assert (H : isEmpty 1%nat s = true) by by_evaluation.
  exact (conj H (sorted_extraction 1%nat [10; 5; 20; 5] s H)).
Defined.

Example scenario_B :
  let s : store :=
    insert_all 2%nat [15; 8; 25] (insert_all 1%nat [10; 20; 5] ∅) in
  let s' := (mergeWith 1%nat 2%nat s).2 in
  isEmpty 2%nat s' = true ∧
  fst <$> drain 6 1%nat s' = Some (Return [5; 8; 10; 15; 20; 25]).
Proof. split; vm_compute; reflexivity. Qed.

Example scenario_C :
  let s : store := (insert 1%nat 100 ∅).2 in
  let s' := (mergeWith 1%nat 2%nat s).2 in
  (getMin 1%nat s').1 = Return 100 ∧ isEmpty 2%nat s' = true.
Proof. split; vm_compute; reflexivity. Qed.

(** * Further properties of the heap operations *)

(** ** The right spine is logarithmic *)

Lemma rspine_NPL t : leftist t → Z.of_nat (rspine t) = NPL t + 1.
Proof.
  induction t as [|k n l IHl r IHr]; [done|].
  intros (Hle & _ & _ & Hr)%leftist_node. simpl rspine. simpl NPL.
  rewrite Nat2Z.inj_succ, (IHr Hr). lia.
Qed.

Lemma rspine_pow2 t : leftist t → 2 ^ Z.of_nat (rspine t) ≤ Z.of_nat (count t) + 1.
Proof.
  intros Hl. rewrite rspine_NPL by done. pose proof (size_lower_bound t Hl). lia.
Qed.

Lemma rspine_log2 t : leftist t → Z.of_nat (rspine t) ≤ Z.log2 (Z.of_nat (count t) + 1).
Proof.
  intros Hl. apply Z.log2_le_pow2; [lia|]. by apply rspine_pow2.
Qed.

(** X1. The right path of every heap a program can build has the length the
    comment on [merge] counts on: it is [getNPL root + 1] nodes long, and
    at most [log2 (n + 1)] for a heap of [n] nodes. *)
Theorem right_spine_logarithmic s this :
  reachable s →
  Z.of_nat (rspine (root this s)) = getNPL (root this s) + 1 ∧
  2 ^ Z.of_nat (rspine (root this s)) ≤ Z.of_nat (count (root this s)) + 1 ∧
  Z.of_nat (rspine (root this s)) ≤ Z.log2 (Z.of_nat (count (root this s)) + 1).
Proof.
  intros Hs. destruct (store_inv_reachable s Hs this) as [_ Hl].
  rewrite getNPL_NPL by done.
  split; [by apply rspine_NPL|]. split; [by apply rspine_pow2|by apply rspine_log2].
Qed.

Lemma right_spine_logarithmic_witness :
  let s : store := run (Insert 1%nat <$> [6; 2; 9; 4; 1; 7; 3]) ∅ in
  reachable s ∧
  Z.of_nat (rspine (root 1%nat s)) = getNPL (root 1%nat s) + 1 ∧
  2 ^ Z.of_nat (rspine (root 1%nat s)) ≤ Z.of_nat (count (root 1%nat s)) + 1 ∧
  Z.of_nat (rspine (root 1%nat s)) ≤ Z.log2 (Z.of_nat (count (root 1%nat s)) + 1).
Proof.
  intros s.
  assert (H : reachable s) by (eexists; reflexivity).
  exact (conj H (right_spine_logarithmic s 1%nat H)).
Defined.

(** X2. [merge] of two leftist trees of [n1] and [n2] nodes makes at most
    [log2 (n1 + 1) + log2 (n2 + 1)] nested calls. *)
Theorem merge_logarithmic h1 h2 fuel :
  leftist h1 → leftist h2 →
  Z.log2 (Z.of_nat (count h1) + 1) + Z.log2 (Z.of_nat (count h2) + 1)
    ≤ Z.of_nat fuel →
  merge_fuel fuel h1 h2 = Some (merge h1 h2).
Proof.
  intros H1 H2 Hfuel. apply merge_fuel_enough.
  pose proof (rspine_log2 h1 H1). pose proof (rspine_log2 h2 H2). lia.
Qed.

Lemma merge_logarithmic_witness :
  let h1 := mkNode 1 1 (mkNode 2 0 (new_Node 4) nullptr) (new_Node 3) in
  let h2 := mkNode 5 1 (new_Node 6) (new_Node 7) in
  leftist h1 ∧ leftist h2 ∧
  Z.log2 (Z.of_nat (count h1) + 1) + Z.log2 (Z.of_nat (count h2) + 1) ≤ Z.of_nat 4 ∧
  merge_fuel 4 h1 h2 = Some (merge h1 h2).
Proof.
  intros h1 h2.
  assert (H1 : leftist h1) by by_evaluation.
  assert (H2 : leftist h2) by by_evaluation.
  assert (H3 : Z.log2 (Z.of_nat (count h1) + 1)
               + Z.log2 (Z.of_nat (count h2) + 1) ≤ Z.of_nat 4) by by_evaluation.
  exact (conj H1 (conj H2 (conj H3 (merge_logarithmic h1 h2 4 H1 H2 H3)))).
Defined.

(** ** getMin *)

Lemma key_merge_unwind h1 merged : key (merge_unwind h1 merged) = key h1.
Proof.
  destruct h1 as [|k n l r]; [done|].
  rewrite merge_unwind_eq. by destruct (_ <? _).
Qed.

Lemma key_merge k1 n1 l1 r1 k2 n2 l2 r2 :
  key (merge (mkNode k1 n1 l1 r1) (mkNode k2 n2 l2 r2)) = Z.min k1 k2.
Proof.
  rewrite merge_nodes.
  destruct (Z.gtb_spec k1 k2); rewrite key_merge_unwind; simpl; lia.
Qed.

Lemma merge_not_nullptr h1 h2 :
  merge h1 h2 = nullptr → h1 = nullptr ∧ h2 = nullptr.
Proof.
  intros H. apply (f_equal count) in H. rewrite count_merge in H. simpl in H.
  destruct h1, h2; simpl in *; (done || lia).
Qed.

(** X3. On a non-empty heap of a reachable store [getMin] returns, without
    an exception and without a change of the store, a key of the heap
    that is at most every key of the heap. *)
Theorem getMin_minimum this s :
  reachable s → isEmpty this s = false →
  ∃ k,
    getMin this s = (Return k, s) ∧
    k ∈ keys (root this s) ∧
    ∀ x, x ∈ keys (root this s) → k ≤ x.
Proof.
  intros Hs Hne. unfold getMin. rewrite Hne. eexists. split; [done|].
  apply isEmpty_false in Hne.
  destruct (store_inv_reachable s Hs this) as [Ho _].
  split.
  - destruct (root this s); [done|]. simpl. multiset_solver.
  - intros x Hx. by apply heap_ordered_root_min.
Qed.

Lemma getMin_minimum_witness :
  let s : store :=
    run [Insert 1%nat 10; Insert 1%nat 5; Insert 2%nat 3;
         MergeWith 1%nat 2%nat; Insert 1%nat 8] ∅ in
  reachable s ∧ isEmpty 1%nat s = false ∧
  ∃ k,
    getMin 1%nat s = (Return k, s) ∧
    k ∈ keys (root 1%nat s) ∧
    ∀ x, x ∈ keys (root 1%nat s) → k ≤ x.
Proof.
  intros s.
  assert (H1 : reachable s) by (eexists; reflexivity).
  assert (H2 : isEmpty 1%nat s = false) by by_evaluation.
  exact (conj H1 (conj H2 (getMin_minimum 1%nat s H1 H2))).
Defined.

(** X4. After [insert(k)] the heap is not empty and [getMin] returns [k] when
    the heap was empty, and otherwise the smaller of [k] and the key that
    was at the root.  This needs no invariant. *)
Theorem getMin_after_insert this k s :
  let s' := (insert this k s).2 in
  isEmpty this s' = false ∧
  getMin this s' =
    (Return (if isEmpty this s then k else Z.min (key (root this s)) k), s').
Proof.
  simpl. unfold getMin, isEmpty at 1 2. unfold insert; simpl.
  rewrite !root_update_eq.
  assert (Hnn : merge (root this s) (new_Node k) ≠ nullptr).
  { intros [_ [=]]%merge_not_nullptr. }
  rewrite !bool_decide_eq_false_2 by done. split; [done|]. do 2 f_equal.
  destruct (isEmpty this s) eqn:E.
  - apply isEmpty_true in E. by rewrite E, merge_nullptr_l.
  - apply isEmpty_false in E. destruct (root this s); [done|].
    apply key_merge.
Qed.

Lemma getMin_after_insert_witness :
  let s : store := run [Insert 1%nat 10; Insert 1%nat 5] ∅ in
  getMin 1%nat (insert 1%nat 7 s).2 = (Return 5, (insert 1%nat 7 s).2) ∧
  getMin 2%nat (insert 2%nat 7 s).2 = (Return 7, (insert 2%nat 7 s).2).
Proof.
  intros s. split.
  - exact (proj2 (getMin_after_insert 1%nat 7 s)).
  - exact (proj2 (getMin_after_insert 2%nat 7 s)).
Defined.

(** ** insert followed by extractMin *)

(** X5. Inserting a key into an empty heap, or a key strictly below the key
    at the root, and extracting the minimum right away returns that key
    and puts the very same tree back: [insert] hangs the old tree below
    the new node and [extractMin] takes it off again. *)
Theorem insert_extractMin_restores this k s :
  isEmpty this s = true ∨ k < key (root this s) →
  ∃ s',
    extractMin this (insert this k s).2 = (Return k, s') ∧
    root this s' = root this s ∧
    ∀ other, other ≠ this → root other s' = root other s.
Proof.
  intros Hk.
  assert (Hm : key (merge (root this s) (new_Node k)) = k ∧
               merge (left (merge (root this s) (new_Node k)))
                     (right (merge (root this s) (new_Node k))) = root this s).
  { destruct (root this s) as [|k1 n1 l1 r1] eqn:Hroot.
    - by rewrite merge_nullptr_l.
    - destruct Hk as [He|Hk];
        [by apply isEmpty_true in He; rewrite Hroot in He|].
      simpl in Hk. unfold new_Node. rewrite merge_nodes.
      destruct (Z.gtb_spec k1 k); [|lia].
      rewrite merge_nullptr_l, merge_unwind_eq.
      destruct (_ <? _); simpl;
        by rewrite ?merge_nullptr_l, ?merge_nullptr_r. }
  destruct Hm as [Hkey Hchildren].
  unfold extractMin, isEmpty at 1. unfold insert; simpl.
  rewrite !root_update_eq.
  rewrite bool_decide_eq_false_2 by (by intros [_ [=]]%merge_not_nullptr).
  eexists. split; [by rewrite Hkey|].
  rewrite root_update_eq. split; [done|].
  intros other Hne. by rewrite !root_update_ne.
Qed.

Lemma insert_extractMin_restores_witness :
  let s : store := run [Insert 1%nat 10; Insert 1%nat 5; Insert 1%nat 20] ∅ in
  (isEmpty 1%nat s = true ∨ 3 < key (root 1%nat s)) ∧
  ∃ s',
    extractMin 1%nat (insert 1%nat 3 s).2 = (Return 3, s') ∧
    root 1%nat s' = root 1%nat s ∧
    ∀ other, other ≠ 1%nat → root other s' = root other s.
Proof.
  intros s.
  assert (H : isEmpty 1%nat s = true ∨ 3 < key (root 1%nat s))
    by (right; by_evaluation).
  exact (conj H (insert_extractMin_restores 1%nat 3 s H)).
Defined.

(** With a key equal to the key at the root the tree is not put back:
    the new node goes below the old root. *)
Example insert_extractMin_tie :
  let s : store := run [Insert 1%nat 5; Insert 1%nat 10] ∅ in
  root 1%nat s = mkNode 5 0 (new_Node 10) nullptr ∧
  root 1%nat (extractMin 1%nat (insert 1%nat 5 s).2).2
    = mkNode 5 0 (new_Node 10) nullptr.
Proof. split; by_evaluation. Qed.

(** ** mergeWith and the empty heap *)

(** X6. Merging an empty heap into a heap leaves the tree of the receiver as
    it is; merging a heap into an empty heap moves the whole tree over
    unchanged; and a second [mergeWith] with the same argument changes
    nothing more in the receiver. *)
Theorem mergeWith_empty this otherTree s :
  this ≠ otherTree →
  let s' := (mergeWith this otherTree s).2 in
  (isEmpty otherTree s = true → root this s' = root this s) ∧
  (isEmpty this s = true → root this s' = root otherTree s) ∧
  root this (mergeWith this otherTree s').2 = root this s'.
Proof.
  intros Hne. simpl. unfold mergeWith. rewrite !decide_False by done. simpl.
  rewrite !(root_update_ne otherTree this) by done. rewrite !root_update_eq.
  split; [|split].
  - intros ->%isEmpty_true. apply merge_nullptr_r.
  - intros ->%isEmpty_true. apply merge_nullptr_l.
  - apply merge_nullptr_r.
Qed.

Lemma mergeWith_empty_witness :
  let s : store := run [Insert 1%nat 10; Insert 1%nat 5] ∅ in
  1%nat ≠ 2%nat ∧ isEmpty 2%nat s = true ∧
  root 1%nat (mergeWith 1%nat 2%nat s).2 = root 1%nat s ∧
  root 2%nat (mergeWith 2%nat 1%nat s).2 = root 1%nat s.
Proof.
  intros s.
  assert (H1 : 1%nat ≠ 2%nat) by lia.
  assert (H2 : 2%nat ≠ 1%nat) by lia.
  assert (H3 : isEmpty 2%nat s = true) by by_evaluation.
  exact (conj H1 (conj H3
    (conj (proj1 (mergeWith_empty 1%nat 2%nat s H1) H3)
          (proj1 (proj2 (mergeWith_empty 2%nat 1%nat s H2)) H3)))).
Defined.

(** ** Draining a heap *)

Lemma size_list_to_set_disj (l : list Z) :
  size (list_to_set_disj l : gmultiset Z) = length l.
Proof.
  induction l as [|x l IH]; simpl; [done|].
  by rewrite gmultiset_size_disj_union, gmultiset_size_singleton, IH.
Qed.

Lemma drain_frame fuel this s r s' :
  drain fuel this s = Some (r, s') →
  ∀ other, other ≠ this → root other s' = root other s.
Proof.
  revert s r s'. induction fuel as [|fuel IH]; intros s r s'; simpl.
  - destruct (isEmpty this s); [|done]. by intros [= <- <-].
  - destruct (isEmpty this s) eqn:E; [by intros [= <- <-]|].
    unfold extractMin. rewrite E.
    destruct (drain fuel this _) as [[[out|e] s1]|] eqn:Hd; [| |done];
      intros [= <- <-] other Hne;
      rewrite (IH _ _ _ Hd other Hne); by apply root_update_ne.
Qed.

Lemma reachable_exec c s : reachable s → reachable (exec c s).
Proof.
  intros [cs ->]. exists (cs ++ [c]).
  generalize (∅ : store). induction cs as [|c' cs IH]; intros s0; simpl; [done|].
  apply IH.
Qed.

Lemma drain_sorted this s :
  heap_ordered (root this s) →
  ∃ out s',
    (∀ fuel, (count (root this s) ≤ fuel)%nat →
       drain fuel this s = Some (Return out, s')) ∧
    isEmpty this s' = true ∧
    Sorted Z.le out ∧
    list_to_set_disj out = keys (root this s) ∧
    length out = count (root this s) ∧
    ∀ other, other ≠ this → root other s' = root other s.
Proof.
  intros Ho.
  destruct (drain_heap_ordered this (count (root this s)) s Ho)
    as (out & s' & Hd & He & Hs & Hk); [done|].
  exists out, s'. split; [|split; [done|split; [|split; [done|split]]]].
  - intros fuel Hfuel. by apply (drain_mono (count (root this s))).
  - by apply StronglySorted_Sorted.
  - by rewrite <- size_list_to_set_disj, Hk, size_keys.
  - by apply (drain_frame _ _ _ _ _ Hd).
Qed.

(** X7. Calling [extractMin] on a heap of a reachable store while [isEmpty]
    is false ends after exactly as many calls as the heap has elements,
    never throws, returns the keys of the heap in non-decreasing order,
    leaves the heap empty and touches no other heap. *)
Theorem drain_reachable this s :
  reachable s →
  ∃ out s',
    (∀ fuel, (count (root this s) ≤ fuel)%nat →
       drain fuel this s = Some (Return out, s')) ∧
    isEmpty this s' = true ∧
    Sorted Z.le out ∧
    list_to_set_disj out = keys (root this s) ∧
    length out = count (root this s) ∧
    ∀ other, other ≠ this → root other s' = root other s.
Proof.
  intros Hs. apply drain_sorted, (store_inv_reachable s Hs this).
Qed.

Lemma drain_reachable_witness :
  let s : store :=
    run [Insert 1%nat 10; Insert 2%nat 4; Insert 1%nat 5; ExtractMin 2%nat;
         Insert 2%nat 8; Insert 1%nat 5; MergeWith 1%nat 2%nat] ∅ in
  reachable s ∧
  ∃ out s',
    (∀ fuel, (count (root 1%nat s) ≤ fuel)%nat →
       drain fuel 1%nat s = Some (Return out, s')) ∧
    isEmpty 1%nat s' = true ∧
    Sorted Z.le out ∧
    list_to_set_disj out = keys (root 1%nat s) ∧
    length out = count (root 1%nat s) ∧
    ∀ other, other ≠ 1%nat → root other s' = root other s.
Proof.
  intros s.
  assert (H : reachable s) by (eexists; reflexivity).
  exact (conj H (drain_reachable 1%nat s H)).
Defined.

(** X8. After [a.mergeWith(b)] on two distinct heaps of a reachable store,
    draining [a] returns the keys of both heaps together, in
    non-decreasing order, in as many calls as the two heaps had
    elements. *)
Theorem mergeWith_drain this otherTree s :
  reachable s → this ≠ otherTree →
  ∃ out s',
    (∀ fuel, (count (root this s) + count (root otherTree s) ≤ fuel)%nat →
       drain fuel this (mergeWith this otherTree s).2 = Some (Return out, s')) ∧
    Sorted Z.le out ∧
    list_to_set_disj out = keys (root this s) ⊎ keys (root otherTree s) ∧
    isEmpty this s' = true ∧ isEmpty otherTree s' = true.
Proof.
  intros Hs Hne.
  pose proof (reachable_exec (MergeWith this otherTree) s Hs) as Hs'.
  simpl in Hs'.
  destruct (drain_sorted this (mergeWith this otherTree s).2)
    as (out & s' & Hd & He & Hso & Hk & _ & Hfr).
  { apply (store_inv_reachable _ Hs' this). }
  assert (Hroot : root this (mergeWith this otherTree s).2
                  = merge (root this s) (root otherTree s)).
  { unfold mergeWith. rewrite decide_False by done. simpl.
    by rewrite root_update_ne, root_update_eq. }
  assert (Hother : root otherTree (mergeWith this otherTree s).2 = nullptr).
  { unfold mergeWith. rewrite decide_False by done. simpl.
    by rewrite root_update_eq. }
  rewrite Hroot in Hd, Hk. rewrite count_merge in Hd. rewrite keys_merge in Hk.
  exists out, s'. repeat split; try done.
  apply isEmpty_true. by rewrite Hfr.
Qed.

Lemma mergeWith_drain_witness :
  let s : store :=
    run [Insert 1%nat 10; Insert 1%nat 20; Insert 1%nat 5;
         Insert 2%nat 15; Insert 2%nat 8; Insert 2%nat 25] ∅ in
  reachable s ∧ 1%nat ≠ 2%nat ∧
  ∃ out s',
    (∀ fuel, (count (root 1%nat s) + count (root 2%nat s) ≤ fuel)%nat →
       drain fuel 1%nat (mergeWith 1%nat 2%nat s).2 = Some (Return out, s')) ∧
    Sorted Z.le out ∧
    list_to_set_disj out = keys (root 1%nat s) ⊎ keys (root 2%nat s) ∧
    isEmpty 1%nat s' = true ∧ isEmpty 2%nat s' = true.
Proof.
  intros s.
  assert (H1 : reachable s) by (eexists; reflexivity).
  assert (H2 : 1%nat ≠ 2%nat) by lia.
  exact (conj H1 (conj H2 (mergeWith_drain 1%nat 2%nat s H1 H2))).
Defined.

(** ** printTree *)

Example printTree_ex :
  let s : store := run (Insert 1%nat <$> [10; 5; 20; 3; 15; 2]) ∅ in
  printTree 1%nat s =
    ["└──R:2 (npl:0)";
     "    ├──L:3 (npl:1)";
     "    │   ├──L:5 (npl:1)";
     "    │   │   ├──L:10 (npl:0)";
     "    │   │   └──R:20 (npl:0)";
     "    │   └──R:15 (npl:0)"] ∧
  printTree 2%nat s = ["Tree is empty."] ∧
  printTreeRecursive (new_Node (-7)) "" true = ["├──L:-7 (npl:0)"].
Proof. repeat split; vm_compute; reflexivity. Qed.

Lemma string_app_assoc (s1 s2 s3 : string) :
  (s1 +:+ s2) +:+ s3 = s1 +:+ (s2 +:+ s3).
Proof.
  induction s1 as [|a s1 IH]; [done|].
  change (String a ((s1 +:+ s2) +:+ s3) = String a (s1 +:+ (s2 +:+ s3))).
  by rewrite IH.
Qed.

Lemma line_shows_weaken prefix more line node :
  line_shows (prefix +:+ more) line node → line_shows prefix line node.
Proof.
  intros [mark ->]. exists (more +:+ mark).
  by rewrite !string_app_assoc.
Qed.

Lemma printTreeRecursive_nodes t prefix isLeft :
  Forall2 (line_shows prefix) (printTreeRecursive t prefix isLeft) (nodes t).
Proof.
  revert prefix isLeft. induction t as [|k n l IHl r IHr]; intros prefix isLeft;
    simpl; [constructor|].
  constructor.
  - by exists (if isLeft then "├──L:" else "└──R:").
  - apply Forall2_app.
    + eapply Forall2_impl; [apply IHl|]. intros ??. apply line_shows_weaken.
    + eapply Forall2_impl; [apply IHr|]. intros ??. apply line_shows_weaken.
Qed.

Lemma length_nodes t : length (nodes t) = count t.
Proof.
  induction t as [|k n l IHl r IHr]; simpl; [done|].
  rewrite length_app. lia.
Qed.

(** X9. [printTree] writes the one line "Tree is empty." for an empty heap.
    For a non-empty heap it writes one line per node, in preorder (a
    node, then its left subtree, then its right subtree), and each line
    ends with the key and the stored npl of its node; the first line is
    the root's, marked as a right branch without indentation. *)
Theorem printTree_lines this s :
  (isEmpty this s = true → printTree this s = ["Tree is empty."]) ∧
  (isEmpty this s = false →
     length (printTree this s) = count (root this s) ∧
     Forall2 (line_shows "") (printTree this s) (nodes (root this s)) ∧
     head (printTree this s) =
       Some ("└──R:" +:+ pretty (key (root this s))
               +:+ " (npl:" +:+ pretty (getNPL (root this s)) +:+ ")")).
Proof.
  unfold printTree. split; intros E; rewrite E; [done|].
  pose proof (printTreeRecursive_nodes (root this s) "" false) as H.
  split; [|split; [done|]].
  - by rewrite (Forall2_length _ _ _ H), length_nodes.
  - apply isEmpty_false in E. by destruct (root this s).
Qed.

Lemma printTree_lines_witness :
  let s : store := run (Insert 1%nat <$> [10; 5; 20]) ∅ in
  (isEmpty 2%nat s = true ∧ printTree 2%nat s = ["Tree is empty."]) ∧
  (isEmpty 1%nat s = false ∧
   length (printTree 1%nat s) = count (root 1%nat s) ∧
   Forall2 (line_shows "") (printTree 1%nat s) (nodes (root 1%nat s)) ∧
   head (printTree 1%nat s) =
     Some ("└──R:" +:+ pretty (key (root 1%nat s))
             +:+ " (npl:" +:+ pretty (getNPL (root 1%nat s)) +:+ ")")).
Proof.
  intros s.
  assert (H1 : isEmpty 2%nat s = true) by by_evaluation.
  assert (H2 : isEmpty 1%nat s = false) by by_evaluation.
  exact (conj (conj H1 (proj1 (printTree_lines 2%nat s) H1))
              (conj H2 (proj2 (printTree_lines 1%nat s) H2))).
Defined.

(** ** The dump determines the tree *)

Lemma string_app_cons a (s t : string) : String a s +:+ t = String a (s +:+ t).
Proof. reflexivity. Qed.

Lemma string_app_nil (t : string) : "" +:+ t = t.
Proof. reflexivity. Qed.

Lemma has_char_app c (s t : string) :
  has_char c (s +:+ t) = has_char c s || has_char c t.
Proof.
  induction s as [|a s IH]; [done|].
  rewrite string_app_cons. simpl. by rewrite IH, orb_assoc.
Qed.

(** Two strings cut at the first occurrence of [c] are equal piece by
    piece. *)
Lemma string_app_delim_inj c (s1 s2 r1 r2 : string) :
  has_char c s1 = false → has_char c s2 = false →
  s1 +:+ String c r1 = s2 +:+ String c r2 → s1 = s2 ∧ r1 = r2.
Proof.
  revert s2. induction s1 as [|a s1 IH]; intros [|b s2];
    rewrite ?string_app_cons, ?string_app_nil; simpl.
  - by intros _ _ [= ->].
  - intros _ [Hb _]%orb_false_elim [= -> _].
    by apply bool_decide_eq_false in Hb.
  - intros [Ha _]%orb_false_elim _ [= -> _].
    by apply bool_decide_eq_false in Ha.
  - intros [_ H1]%orb_false_elim [_ H2]%orb_false_elim [= -> H].
    destruct (IH s2 H1 H2 H) as [-> ->]. done.
Qed.

Lemma pretty_N_go_has_char c x s :
  (∀ d, pretty_N_char d ≠ c) →
  has_char c s = false → has_char c (pretty_N_go x s) = false.
Proof.
  intros Hc. revert s. induction (N.lt_wf_0 x) as [x _ IH]; intros s Hs.
  destruct (decide (x = 0%N)) as [->|Hx]; [by rewrite pretty_N_go_0|].
  rewrite pretty_N_go_step by lia. apply IH.
  - apply N.div_lt; lia.
  - simpl. rewrite Hs, orb_false_r. apply bool_decide_eq_false, Hc.
Qed.

Lemma pretty_Z_has_char c (z : Z) :
  (∀ d, pretty_N_char d ≠ c) → c ≠ "-"%char →
  has_char c (pretty z) = false.
Proof.
  intros Hc Hdash.
  assert (H0 : has_char c "0" = false).
  { simpl. rewrite orb_false_r. apply bool_decide_eq_false, (Hc 0%N). }
  assert (Hpos : ∀ p : positive, has_char c (pretty p) = false).
  { intros p. unfold pretty, pretty_positive, pretty, pretty_N.
    case_decide; [done|]. by apply pretty_N_go_has_char. }
  destruct z as [|p|p]; unfold pretty, pretty_Z; [done|apply Hpos|].
  rewrite has_char_app, Hpos, orb_false_r. simpl.
  rewrite orb_false_r. apply bool_decide_eq_false. congruence.
Qed.

Lemma pretty_Z_no_space (z : Z) : has_char " "%char (pretty z) = false.
Proof.
  apply pretty_Z_has_char; [|done].
  intros d. unfold pretty_N_char. by repeat case_match.
Qed.

Lemma pretty_Z_no_paren (z : Z) : has_char ")"%char (pretty z) = false.
Proof.
  apply pretty_Z_has_char; [|done].
  intros d. unfold pretty_N_char. by repeat case_match.
Qed.

(** The text of a line after the branch mark gives back the key and the
    npl. *)
Lemma line_text_inj (k1 n1 k2 n2 : Z) :
  pretty k1 +:+ " (npl:" +:+ pretty n1 +:+ ")"
  = pretty k2 +:+ " (npl:" +:+ pretty n2 +:+ ")" →
  k1 = k2 ∧ n1 = n2.
Proof.
  change (" (npl:" +:+ pretty n1 +:+ ")")
    with (String " " ("(npl:" +:+ pretty n1 +:+ ")")).
  change (" (npl:" +:+ pretty n2 +:+ ")")
    with (String " " ("(npl:" +:+ pretty n2 +:+ ")")).
  intros [Hk Hn]%string_app_delim_inj; [|apply pretty_Z_no_space..].
  apply (inj pretty) in Hk. apply (inj (String.app "(npl:")) in Hn.
  change ")" with (String ")" "") in Hn.
  apply string_app_delim_inj in Hn as [Hn _]; [|apply pretty_Z_no_paren..].
  by apply (inj pretty) in Hn.
Qed.

Lemma app_split_exclusive {A} (P Q : A → Prop) (l1 l2 r1 r2 : list A) :
  (∀ x, P x → Q x → False) →
  Forall P l1 → Forall P l2 → Forall Q r1 → Forall Q r2 →
  l1 ++ r1 = l2 ++ r2 → l1 = l2 ∧ r1 = r2.
Proof.
  intros Hex Hl1. revert l2.
  induction Hl1 as [|x l1 Hx Hl1 IH]; intros l2 Hl2 Hr1 Hr2; simpl.
  - destruct Hl2 as [|y l2 Hy Hl2]; simpl; [done|].
    intros ->. apply Forall_cons in Hr1 as [Hqy _]. destruct (Hex y Hy Hqy).
  - destruct Hl2 as [|y l2 Hy Hl2]; simpl.
    + intros <-. apply Forall_cons in Hr2 as [Hqx _]. destruct (Hex x Hx Hqx).
    + intros [= -> H]. destruct (IH l2 Hl2 Hr1 Hr2 H) as [-> ->]. done.
Qed.

Lemma left_right_line_exclusive p line :
  left_line p line → right_line p line → False.
Proof.
  intros [r1 H1] [r2 H2].
  destruct H1 as [-> | ->], H2 as [H|H];
    apply (inj (String.app p)) in H; discriminate H.
Qed.

Lemma printTreeRecursive_prefix t prefix isLeft :
  Forall (λ line, ∃ rest, line = prefix +:+ rest)
         (printTreeRecursive t prefix isLeft).
Proof.
  revert prefix isLeft. induction t as [|k n l IHl r IHr]; intros prefix isLeft;
    simpl; [constructor|].
  constructor; [by eexists|].
  apply Forall_app. split.
  - eapply Forall_impl; [apply IHl|]. intros line [rest ->].
    eexists. by rewrite string_app_assoc.
  - eapply Forall_impl; [apply IHr|]. intros line [rest ->].
    eexists. by rewrite string_app_assoc.
Qed.

Lemma printTreeRecursive_left t p :
  Forall (left_line p) (printTreeRecursive t p true).
Proof.
  destruct t as [|k n l r]; simpl; [constructor|].
  constructor.
  { exists ("──L:" +:+ pretty k +:+ " (npl:" +:+ pretty n +:+ ")"). by left. }
  apply Forall_app. split;
    (eapply Forall_impl; [apply printTreeRecursive_prefix|]);
    intros line [rest ->]; exists ("   " +:+ rest); right;
    by rewrite !string_app_assoc.
Qed.

Lemma printTreeRecursive_right t p :
  Forall (right_line p) (printTreeRecursive t p false).
Proof.
  destruct t as [|k n l r]; simpl; [constructor|].
  constructor.
  { exists ("──R:" +:+ pretty k +:+ " (npl:" +:+ pretty n +:+ ")"). by left. }
  apply Forall_app. split;
    (eapply Forall_impl; [apply printTreeRecursive_prefix|]);
    intros line [rest ->]; exists ("   " +:+ rest); right;
    by rewrite !string_app_assoc.
Qed.

Lemma printTreeRecursive_inj t1 t2 prefix isLeft :
  printTreeRecursive t1 prefix isLeft = printTreeRecursive t2 prefix isLeft →
  t1 = t2.
Proof.
  revert t2 prefix isLeft.
  induction t1 as [|k1 n1 l1 IHl r1 IHr]; intros [|k2 n2 l2 r2] prefix isLeft;
    simpl; try done.
  intros [= Hline Hrest].
  apply (inj (String.app prefix)) in Hline.
  apply (inj (String.app _)) in Hline.
  apply line_text_inj in Hline as [-> ->].
  set (p := prefix +:+ (if isLeft then "│   " else "    ")) in *.
  destruct (app_split_exclusive (left_line p) (right_line p) _ _ _ _
              (left_right_line_exclusive p)
              (printTreeRecursive_left l1 p) (printTreeRecursive_left l2 p)
              (printTreeRecursive_right r1 p) (printTreeRecursive_right r2 p)
              Hrest) as [Hl Hr].
  by rewrite (IHl _ _ _ Hl), (IHr _ _ _ Hr).
Qed.

(** X10. The dump is unambiguous: two heaps for which [printTree] writes the
    same lines hold the same tree, with the same keys and npl fields at
    the same places. *)
Theorem printTree_inj this1 s1 this2 s2 :
  printTree this1 s1 = printTree this2 s2 →
  root this1 s1 = root this2 s2.
Proof.
  unfold printTree.
  destruct (isEmpty this1 s1) eqn:E1, (isEmpty this2 s2) eqn:E2.
  - apply isEmpty_true in E1, E2. by rewrite E1, E2.
  - apply isEmpty_false in E2. by destruct (root this2 s2).
  - apply isEmpty_false in E1. by destruct (root this1 s1).
  - apply printTreeRecursive_inj.
Qed.

Lemma printTree_inj_witness :
  let s1 : store := run [Insert 1%nat 5; Insert 1%nat 10] ∅ in
  let s2 : store := run [Insert 2%nat 10; Insert 2%nat 5; Insert 1%nat 7] ∅ in
  printTree 1%nat s1 = printTree 2%nat s2 ∧
  root 1%nat s1 = root 2%nat s2.
Proof.
  intros s1 s2.
  assert (H : printTree 1%nat s1 = printTree 2%nat s2) by by_evaluation.
  exact (conj H (printTree_inj 1%nat s1 2%nat s2 H)).
Defined.

(** * The program on nodes in memory *)

(** ** Steps of a computation *)

Lemma bind_ok {S A B} (c : M S A) (f : A → M S B) σ a σ' :
  c σ = Ok a σ' → (c ≫= f) σ = f a σ'.
Proof. unfold mbind, M_bind. by intros ->. Qed.

Lemma read_ok (m : memory) a c : m !! a = Some c → read a m = Ok c m.
Proof. unfold read. by intros ->. Qed.

Lemma write_ok (m : memory) a c c' :
  m !! a = Some c → write a c' m = Ok () (<[a := c']> m).
Proof. unfold write. by intros ->. Qed.

Lemma free_ok (m : memory) a c : m !! a = Some c → free a m = Ok () (delete a m).
Proof. unfold free. by intros ->. Qed.

(** ** Trees in memory *)

Lemma tree_at_frame (m m' : memory) p t F :
  (∀ a, a ∈ F → m' !! a = m !! a) → tree_at m p t F → tree_at m' p t F.
Proof.
  revert p F. induction t as [|k n l IHl r IHr]; intros p F Hagree; simpl; [done|].
  intros (a & pl & pr & Fl & Fr & -> & Ha & Hl & Hr & -> & Hal & Har & Hd).
  exists a, pl, pr, Fl, Fr. repeat split; try done.
  - rewrite Hagree; [done|set_solver].
  - apply IHl; [|done]. intros b Hb. apply Hagree. set_solver.
  - apply IHr; [|done]. intros b Hb. apply Hagree. set_solver.
Qed.

Lemma tree_at_dom (m : memory) p t F : tree_at m p t F → F ⊆ dom m.
Proof.
  revert p F. induction t as [|k n l IHl r IHr]; intros p F; simpl.
  - intros [_ ->]. set_solver.
  - intros (a & pl & pr & Fl & Fr & -> & Ha & Hl & Hr & -> & _).
    apply IHl in Hl. apply IHr in Hr.
    assert (a ∈ dom m) by (by apply elem_of_dom).
    set_solver.
Qed.

Lemma tree_at_size (m : memory) p t F : tree_at m p t F → size F = count t.
Proof.
  revert p F. induction t as [|k n l IHl r IHr]; intros p F; simpl.
  - by intros [_ ->].
  - intros (a & pl & pr & Fl & Fr & -> & Ha & Hl & Hr & -> & Hal & Har & Hd).
    rewrite !size_union, size_singleton by set_solver.
    by rewrite (IHl _ _ Hl), (IHr _ _ Hr).
Qed.

Lemma tree_at_null (m : memory) t F : tree_at m None t F → t = nullptr ∧ F = ∅.
Proof.
  destruct t; simpl; [by intros [_ ->]|].
  by intros (a & pl & pr & Fl & Fr & [=] & _).
Qed.

Lemma tree_at_nullptr (m : memory) p F : tree_at m p nullptr F → p = None ∧ F = ∅.
Proof. done. Qed.

Lemma tree_at_root_in (m : memory) a t F : tree_at m (Some a) t F → a ∈ F.
Proof.
  destruct t; simpl; [by intros [[=] _]|].
  intros (a' & pl & pr & Fl & Fr & [= <-] & _ & _ & _ & -> & _). set_solver.
Qed.

Lemma getNPL_ptr_ok (m : memory) p t F :
  tree_at m p t F → getNPL_ptr p m = Ok (getNPL t) m.
Proof.
  destruct t as [|k n l r]; simpl.
  - by intros [-> _].
  - intros (a & pl & pr & Fl & Fr & -> & Ha & _). simpl.
    by rewrite (bind_ok _ _ _ _ _ (read_ok _ _ _ Ha)).
Qed.

(** ** merge in place *)

Lemma tree_at_insert_other (m : memory) a c p t F :
  a ∉ F → tree_at m p t F → tree_at (<[a := c]> m) p t F.
Proof.
  intros Ha. apply tree_at_frame. intros b Hb.
  apply lookup_insert_ne. set_solver.
Qed.

Lemma merge_unwind_ptr_ok (m : memory) a k n pl pr0 merged l x tr Fl Fr :
  m !! a = Some (Cell k n pl pr0) →
  tree_at m pl l Fl → tree_at m merged tr Fr →
  a ∉ Fl → a ∉ Fr → Fl ## Fr →
  ∃ c,
    merge_unwind_ptr a merged m = Ok (Some a) (<[a := c]> m) ∧
    tree_at (<[a := c]> m) (Some a) (merge_unwind (mkNode k n l x) tr)
            ({[a]} ∪ Fl ∪ Fr).
Proof.
  intros Ha Hl Hr Hal Har Hd.
  pose (m1 := <[a := Cell k n pl merged]> m).
  assert (Ha1 : m1 !! a = Some (Cell k n pl merged)) by apply lookup_insert_eq.
  assert (Hl1 : tree_at m1 pl l Fl) by (by apply tree_at_insert_other).
  assert (Hr1 : tree_at m1 merged tr Fr) by (by apply tree_at_insert_other).
  unfold merge_unwind_ptr.
  rewrite (bind_ok _ _ _ _ _ (read_ok _ _ _ Ha)). simpl.
  rewrite (bind_ok _ _ _ _ _ (write_ok _ _ _ _ Ha)). fold m1.
  rewrite (bind_ok _ _ _ _ _ (read_ok _ _ _ Ha1)). simpl.
  rewrite (bind_ok _ _ _ _ _ (getNPL_ptr_ok _ _ _ _ Hl1)).
  rewrite (bind_ok _ _ _ _ _ (read_ok _ _ _ Ha1)). simpl.
  rewrite (bind_ok _ _ _ _ _ (getNPL_ptr_ok _ _ _ _ Hr1)).
  rewrite merge_unwind_eq.
  destruct (getNPL l <? getNPL tr).
  - pose (m2 := <[a := Cell k n merged pl]> m).
    assert (Hsw : swapChildren_ptr (Some a) m1 = Ok () m2).
    { simpl. rewrite (bind_ok _ _ _ _ _ (read_ok _ _ _ Ha1)). simpl.
      rewrite (write_ok _ _ _ _ Ha1). unfold m1, m2. by rewrite insert_insert_eq. }
    assert (Ha2 : m2 !! a = Some (Cell k n merged pl)) by apply lookup_insert_eq.
    assert (Hl2 : tree_at m2 pl l Fl) by (by apply tree_at_insert_other).
    rewrite (bind_ok _ _ _ _ _ Hsw).
    rewrite (bind_ok _ _ _ _ _ (read_ok _ _ _ Ha2)). simpl.
    rewrite (bind_ok _ _ _ _ _ (getNPL_ptr_ok _ _ _ _ Hl2)).
    rewrite (bind_ok _ _ _ _ _ (read_ok _ _ _ Ha2)). simpl.
    rewrite (bind_ok _ _ _ _ _ (write_ok _ _ _ _ Ha2)).
    unfold m2. rewrite insert_insert_eq.
    eexists. split; [done|]. simpl.
    exists a, merged, pl, Fr, Fl. rewrite lookup_insert_eq.
    split; [done|]. split; [done|].
    split; [by apply tree_at_insert_other|].
    split; [by apply tree_at_insert_other|].
    split; [set_solver|]. split; [done|]. split; [done|]. set_solver.
  - rewrite (bind_ok (mret () : M memory ()) _ m1 () m1 eq_refl).
    rewrite (bind_ok _ _ _ _ _ (read_ok _ _ _ Ha1)). simpl.
    rewrite (bind_ok _ _ _ _ _ (getNPL_ptr_ok _ _ _ _ Hr1)).
    rewrite (bind_ok _ _ _ _ _ (read_ok _ _ _ Ha1)). simpl.
    rewrite (bind_ok _ _ _ _ _ (write_ok _ _ _ _ Ha1)).
    unfold m1. rewrite insert_insert_eq.
    eexists. split; [done|]. simpl.
    exists a, pl, merged, Fl, Fr. rewrite lookup_insert_eq.
    split; [done|]. split; [done|].
    split; [by apply tree_at_insert_other|].
    split; [by apply tree_at_insert_other|]. done.
Qed.

Lemma merge_ptr_rec_ok fuel (m : memory) a k n pl pr l r pb tb Fl Fr Fb :
  merge_ptr_spec fuel →
  m !! a = Some (Cell k n pl pr) →
  tree_at m pl l Fl → tree_at m pr r Fr → tree_at m pb tb Fb →
  a ∉ Fl → a ∉ Fr → Fl ## Fr → ({[a]} ∪ Fl ∪ Fr) ## Fb →
  (rspine r + rspine tb ≤ fuel)%nat →
  ∃ p m',
    (c1 ← read a;
     merged ← merge_ptr fuel (c_right c1) pb;
     merge_unwind_ptr a merged) m = Ok p m' ∧
    tree_at m' p (merge_unwind (mkNode k n l r) (merge r tb))
            ({[a]} ∪ Fl ∪ Fr ∪ Fb) ∧
    (∀ b, b ∉ {[a]} ∪ Fl ∪ Fr ∪ Fb → m' !! b = m !! b) ∧
    dom m' = dom m.
Proof.
  intros IH Ha Hl Hr Hb Hal Har Hlr Hdisj Hfuel.
  destruct (IH m pr pb r tb Fr Fb Hr Hb) as (q & m1 & Hrec & Hq & Hfr & Hdom);
    [set_solver|done|].
  assert (Ha1 : m1 !! a = Some (Cell k n pl pr)).
  { rewrite Hfr; [done|set_solver]. }
  assert (Hl1 : tree_at m1 pl l Fl).
  { eapply tree_at_frame; [|done]. intros b Hb'. apply Hfr. set_solver. }
  destruct (merge_unwind_ptr_ok m1 a k n pl pr q l r (merge r tb) Fl (Fr ∪ Fb))
    as (c & Hun & Ht); [done|done|done|done|set_solver|set_solver|].
  exists (Some a), (<[a := c]> m1).
  rewrite (bind_ok _ _ _ _ _ (read_ok _ _ _ Ha)). simpl.
  rewrite (bind_ok _ _ _ _ _ Hrec).
  split; [done|]. split; [|split].
  - by replace ({[a]} ∪ Fl ∪ Fr ∪ Fb) with ({[a]} ∪ Fl ∪ (Fr ∪ Fb)) by set_solver.
  - intros b Hb'. rewrite lookup_insert_ne by set_solver. apply Hfr. set_solver.
  - rewrite dom_insert_L, Hdom.
    assert (a ∈ dom m) by (by apply elem_of_dom). set_solver.
Qed.

Lemma merge_ptr_ok fuel : merge_ptr_spec fuel.
Proof.
  induction fuel as [|fuel IH]; intros m h1 h2 t1 t2 F1 F2 H1 H2 Hd Hfuel.
  - destruct t1 as [|k1 n1 l1 r1].
    { destruct H1 as [-> ->]. exists h2, m. rewrite merge_nullptr_l.
      split; [done|]. split; [|done].
      by replace (∅ ∪ F2) with F2 by set_solver. }
    destruct t2 as [|k2 n2 l2 r2]; [|simpl in Hfuel; lia].
    destruct H2 as [-> ->]. exists h1, m. rewrite merge_nullptr_r.
    split; [by destruct h1|]. split; [|done].
    by replace (F1 ∪ ∅) with F1 by set_solver.
  - destruct t1 as [|k1 n1 l1 r1].
    { destruct H1 as [-> ->]. exists h2, m. rewrite merge_nullptr_l.
      split; [done|]. split; [|done].
      by replace (∅ ∪ F2) with F2 by set_solver. }
    destruct t2 as [|k2 n2 l2 r2].
    { destruct H2 as [-> ->]. exists h1, m. rewrite merge_nullptr_r.
      split; [by destruct h1|]. split; [|done].
      by replace (F1 ∪ ∅) with F1 by set_solver. }
    pose proof H1 as (a1 & pl1 & pr1 & Fl1 & Fr1 & -> & Ha1 & Hl1 & Hr1 & -> & ? & ? & ?).
    pose proof H2 as (a2 & pl2 & pr2 & Fl2 & Fr2 & -> & Ha2 & Hl2 & Hr2 & -> & ? & ? & ?).
    cbn [merge_ptr].
    rewrite (bind_ok _ _ _ _ _ (read_ok _ _ _ Ha1)).
    rewrite (bind_ok _ _ _ _ _ (read_ok _ _ _ Ha2)).
    rewrite merge_nodes. cbn [c_key]. simpl in Hfuel.
    destruct (k1 >? k2); cbv beta iota.
    + destruct (merge_ptr_rec_ok fuel m a2 k2 n2 pl2 pr2 l2 r2 (Some a1)
                  (mkNode k1 n1 l1 r1) Fl2 Fr2 ({[a1]} ∪ Fl1 ∪ Fr1))
        as (p & m' & Hrun & Ht & Hfr & Hdom); try done; [simpl; lia|].
      exists p, m'. split; [done|]. split; [|split; [|done]].
      * by replace ({[a1]} ∪ Fl1 ∪ Fr1 ∪ ({[a2]} ∪ Fl2 ∪ Fr2))
          with ({[a2]} ∪ Fl2 ∪ Fr2 ∪ ({[a1]} ∪ Fl1 ∪ Fr1)) by set_solver.
      * intros b Hb. apply Hfr. set_solver.
    + destruct (merge_ptr_rec_ok fuel m a1 k1 n1 pl1 pr1 l1 r1 (Some a2)
                  (mkNode k2 n2 l2 r2) Fl1 Fr1 ({[a2]} ∪ Fl2 ∪ Fr2))
        as (p & m' & Hrun & Ht & Hfr & Hdom); try done; [simpl; lia|].
      by exists p, m'.
Qed.

(** ** Destruction *)

Lemma destroyRecursive_ptr_ok fuel : destroyRecursive_ptr_spec fuel.
Proof.
  induction fuel as [|fuel IH]; intros m p t F Ht Hfuel.
  - destruct t; [|simpl in Hfuel; lia]. destruct Ht as [-> ->].
    exists m. split; [done|]. split; [set_solver|done].
  - destruct t as [|k n l r].
    { destruct Ht as [-> ->]. exists m. split; [done|]. split; [set_solver|done]. }
    destruct Ht as (a & pl & pr & Fl & Fr & -> & Ha & Hl & Hr & -> & Hal & Har & Hd).
    simpl in Hfuel. cbn [destroyRecursive_ptr].
    rewrite (bind_ok _ _ _ _ _ (read_ok _ _ _ Ha)). simpl c_left.
    destruct (IH m pl l Fl Hl) as (m1 & Hrun1 & Hdom1 & Hfr1); [lia|].
    rewrite (bind_ok _ _ _ _ _ Hrun1).
    assert (Ha1 : m1 !! a = Some (Cell k n pl pr)) by (by rewrite Hfr1).
    rewrite (bind_ok _ _ _ _ _ (read_ok _ _ _ Ha1)). simpl c_right.
    assert (Hr1 : tree_at m1 pr r Fr).
    { eapply tree_at_frame; [|done]. intros b Hb. apply Hfr1. set_solver. }
    destruct (IH m1 pr r Fr Hr1) as (m2 & Hrun2 & Hdom2 & Hfr2); [lia|].
    rewrite (bind_ok _ _ _ _ _ Hrun2).
    assert (Ha2 : m2 !! a = Some (Cell k n pl pr)) by (by rewrite Hfr2).
    rewrite (free_ok _ _ _ Ha2).
    exists (delete a m2). split; [done|]. split.
    + rewrite dom_delete_L, Hdom2, Hdom1. set_solver.
    + intros b Hb. rewrite lookup_delete_ne by set_solver.
      rewrite Hfr2, Hfr1; [done|set_solver..].
Qed.

(** ** Objects *)

Lemma on_mem_ok {A} (c : M memory A) σ a m :
  c (mem σ) = Ok a m → on_mem c σ = Ok a (Machine m (objs σ)).
Proof. unfold on_mem. by intros ->. Qed.

Lemma get_root_ok σ this p : objs σ !! this = Some p → get_root this σ = Ok p σ.
Proof. unfold get_root. by intros ->. Qed.

Lemma set_root_ok σ this p p' :
  objs σ !! this = Some p →
  set_root this p' σ = Ok () (Machine (mem σ) (<[this := p']> (objs σ))).
Proof. unfold set_root. by intros ->. Qed.

Lemma deref_root_ok σ this a c :
  objs σ !! this = Some (Some a) → mem σ !! a = Some c →
  deref_root this σ = Ok c σ.
Proof.
  intros Hp Ha. unfold deref_root.
  rewrite (bind_ok _ _ _ _ _ (get_root_ok _ _ _ Hp)).
  rewrite (on_mem_ok _ _ _ _ (read_ok _ _ _ Ha)). by destruct σ.
Qed.

Lemma repr_live σ s fp this p :
  repr σ s fp → objs σ !! this = Some p →
  tree_at (mem σ) p (root this s) (fp this).
Proof. intros (Hobj & _ & _) Hp. specialize (Hobj this). by rewrite Hp in Hobj. Qed.

Lemma repr_fp_dom σ s fp this : repr σ s fp → fp this ⊆ dom (mem σ).
Proof. intros (_ & _ & Hdom) l Hl. apply Hdom. eauto. Qed.

Lemma repr_count_size σ s fp this :
  repr σ s fp → (count (root this s) ≤ size (mem σ))%nat.
Proof.
  intros Hrepr. pose proof Hrepr as (Hobj & _ & _). specialize (Hobj this).
  destruct (objs σ !! this) as [p|].
  - rewrite <- (tree_at_size _ _ _ _ Hobj), <- size_dom.
    apply subseteq_size. by eapply repr_fp_dom.
  - destruct Hobj as [-> _]. simpl. lia.
Qed.

Lemma rspine_le_count t : (rspine t ≤ count t)%nat.
Proof. induction t; simpl; lia. Qed.

(** One heap changes, the others and their nodes stay. *)
Lemma repr_update σ s fp this m' objs' t' F' :
  repr σ s fp →
  (∀ x, x ≠ this → objs' !! x = objs σ !! x) →
  match objs' !! this with
  | Some p' => tree_at m' p' t' F'
  | None => t' = nullptr ∧ F' = ∅
  end →
  (∀ b, b ∈ F' → b ∈ fp this ∨ b ∉ dom (mem σ)) →
  (∀ b, b ∉ fp this → b ∉ F' → m' !! b = mem σ !! b) →
  dom m' = (dom (mem σ) ∖ fp this) ∪ F' →
  repr (Machine m' objs') (<[this := t']> s)
       (λ x, if decide (x = this) then F' else fp x).
Proof.
  intros Hrepr Hobjs Hthis Hnew Hframe Hdom.
  pose proof Hrepr as (Hobj & Hdisj & Hmem).
  assert (Hother : ∀ x, x ≠ this → fp x ## F').
  { intros x Hx b Hb HbF. destruct (Hnew b HbF) as [Hin|Hout].
    - by apply (Hdisj x this Hx b).
    - apply Hout, Hmem. eauto. }
  split; [|split]; simpl.
  - intros x. destruct (decide (x = this)) as [->|Hx].
    + by rewrite root_update_eq.
    + rewrite Hobjs, root_update_ne by done. specialize (Hobj x).
      destruct (objs σ !! x) as [q|]; [|done].
      eapply tree_at_frame; [|done]. intros b Hb. apply Hframe.
      * intros Hb'. by apply (Hdisj x this Hx b).
      * intros Hb'. by apply (Hother x Hx b).
  - intros a b Hab. destruct (decide (a = this)) as [->|Ha],
      (decide (b = this)) as [->|Hb]; [done| | |by apply Hdisj].
    + symmetry. by apply Hother.
    + by apply Hother.
  - intros l. rewrite Hdom, elem_of_union, elem_of_difference, Hmem. split.
    + intros [[[x Hx] Hnot]|HF].
      * exists x. destruct (decide (x = this)) as [->|]; [done|done].
      * exists this. by rewrite decide_True.
    + intros [x Hx]. destruct (decide (x = this)) as [->|Hne]; [by right|].
      left. split; [eauto|]. intros Hl. by apply (Hdisj x this Hne l).
Qed.

Lemma isEmpty_ptr_ok σ s fp this p :
  repr σ s fp → objs σ !! this = Some p →
  isEmpty_ptr this σ = Ok (isEmpty this s) σ.
Proof.
  intros Hrepr Hp. pose proof (repr_live _ _ _ _ _ Hrepr Hp) as Ht.
  unfold isEmpty_ptr. rewrite (bind_ok _ _ _ _ _ (get_root_ok _ _ _ Hp)).
  unfold isEmpty. simpl. do 2 f_equal.
  destruct (root this s) as [|k n l r] eqn:Hroot.
  - destruct Ht as [-> _]. by rewrite !bool_decide_eq_true_2.
  - destruct Ht as (a & ? & ? & ? & ? & -> & _).
    by rewrite !bool_decide_eq_false_2.
Qed.

Lemma getMin_ptr_ok σ s fp this p :
  repr σ s fp → objs σ !! this = Some p →
  getMin_ptr this σ = Ok (getMin this s).1 σ ∧ (getMin this s).2 = s.
Proof.
  intros Hrepr Hp. pose proof (repr_live _ _ _ _ _ Hrepr Hp) as Ht.
  unfold getMin_ptr, getMin.
  rewrite (bind_ok _ _ _ _ _ (isEmpty_ptr_ok _ _ _ _ _ Hrepr Hp)).
  destruct (isEmpty this s) eqn:E; [done|]. simpl. split; [|done].
  apply isEmpty_false in E.
  destruct (root this s) as [|k n l r]; [done|].
  destruct Ht as (a & pl & pr & Fl & Fr & -> & Ha & _).
  by rewrite (bind_ok _ _ _ _ _ (deref_root_ok _ _ _ _ Hp Ha)).
Qed.

Lemma extractMin_ptr_ok σ s fp this p fuel :
  repr σ s fp → objs σ !! this = Some p → (size (mem σ) ≤ fuel)%nat →
  ∃ σ' fp',
    extractMin_ptr fuel this σ = Ok (extractMin this s).1 σ' ∧
    repr σ' (extractMin this s).2 fp' ∧
    dom (objs σ') = dom (objs σ) ∧
    dom (mem σ') = match p with
                   | Some a => dom (mem σ) ∖ {[a]}
                   | None => dom (mem σ)
                   end.
Proof.
  intros Hrepr Hp Hfuel. pose proof (repr_live _ _ _ _ _ Hrepr Hp) as Ht.
  pose proof (repr_count_size _ _ _ this Hrepr) as Hcount.
  unfold extractMin_ptr, extractMin.
  rewrite (bind_ok _ _ _ _ _ (isEmpty_ptr_ok _ _ _ _ _ Hrepr Hp)).
  destruct (isEmpty this s) eqn:E.
  { apply isEmpty_true in E. rewrite E in Ht. destruct Ht as [-> _].
    by exists σ, fp. }
  apply isEmpty_false in E.
  destruct (root this s) as [|k n l r] eqn:Hroot; [done|]. simpl in Hcount.
  destruct Ht as (a & pl & pr & Fl & Fr & -> & Ha & Hl & Hr & HF & Hal & Har & Hd).
  rewrite (bind_ok _ _ _ _ _ (deref_root_ok _ _ _ _ Hp Ha)).
  rewrite (bind_ok _ _ _ _ _ (get_root_ok _ _ _ Hp)).
  rewrite (bind_ok _ _ _ _ _ (deref_root_ok _ _ _ _ Hp Ha)).
  rewrite (bind_ok _ _ _ _ _ (deref_root_ok _ _ _ _ Hp Ha)). simpl.
  destruct (merge_ptr_ok fuel (mem σ) pl pr l r Fl Fr Hl Hr Hd)
    as (q & m1 & Hrun & Hq & Hfr & Hdom).
  { pose proof (rspine_le_count l). pose proof (rspine_le_count r). lia. }
  rewrite (bind_ok _ _ _ _ _ (on_mem_ok _ _ _ _ Hrun)).
  rewrite (bind_ok _ _ _ _ _ (set_root_ok (Machine m1 (objs σ)) _ _ q Hp)). simpl.
  assert (Ha1 : m1 !! a = Some (Cell k n pl pr)).
  { rewrite Hfr; [done|set_solver]. }
  rewrite (bind_ok _ _ (Machine m1 _) () (Machine (delete a m1) (<[this:=q]> (objs σ))))
    by (unfold on_mem; simpl; by rewrite (free_ok _ _ _ Ha1)).
  eexists _, _. split; [done|]. split; [|split]; simpl.
  - apply (repr_update σ s fp this _ _ _ (Fl ∪ Fr)); [done|..].
    + intros x Hx. by rewrite lookup_insert_ne.
    + rewrite lookup_insert_eq. eapply tree_at_frame; [|done].
      intros b Hb. apply lookup_delete_ne. set_solver.
    + intros b Hb. left. set_solver.
    + intros b Hb1 Hb2. rewrite lookup_delete_ne by set_solver.
      apply Hfr. set_solver.
    + rewrite dom_delete_L, Hdom, HF.
      pose proof (tree_at_dom _ _ _ _ Hl) as Hdl.
      pose proof (tree_at_dom _ _ _ _ Hr) as Hdr.
      clear -Hdl Hdr Hal Har. apply set_eq. intros b.
      destruct (decide (b ∈ Fl ∪ Fr)); set_solver.
  - rewrite dom_insert_L. assert (this ∈ dom (objs σ)) by (by apply elem_of_dom).
    set_solver.
  - by rewrite dom_delete_L, Hdom.
Qed.

Lemma mergeWith_ptr_ok σ s fp this otherTree p1 p2 fuel :
  repr σ s fp →
  objs σ !! this = Some p1 → objs σ !! otherTree = Some p2 →
  (size (mem σ) ≤ fuel)%nat →
  ∃ σ' fp',
    mergeWith_ptr fuel this otherTree σ = Ok (Return ()) σ' ∧
    repr σ' (mergeWith this otherTree s).2 fp' ∧
    dom (objs σ') = dom (objs σ) ∧
    dom (mem σ') = dom (mem σ).
Proof.
  intros Hrepr Hp1 Hp2 Hfuel. unfold mergeWith_ptr, mergeWith.
  destruct (decide (this = otherTree)) as [->|Hne]; [by exists σ, fp|].
  pose proof (repr_live _ _ _ _ _ Hrepr Hp1) as Ht1.
  pose proof (repr_live _ _ _ _ _ Hrepr Hp2) as Ht2.
  pose proof Hrepr as (Hobj & Hdisj & Hmem).
  rewrite (bind_ok _ _ _ _ _ (get_root_ok _ _ _ Hp1)).
  rewrite (bind_ok _ _ _ _ _ (get_root_ok _ _ _ Hp2)).
  destruct (merge_ptr_ok fuel (mem σ) p1 p2 _ _ _ _ Ht1 Ht2 (Hdisj _ _ Hne))
    as (q & m1 & Hrun & Hq & Hfr & Hdom).
  { pose proof (rspine_le_count (root this s)).
    pose proof (rspine_le_count (root otherTree s)).
    rewrite <- (tree_at_size _ _ _ _ Ht1), <- (tree_at_size _ _ _ _ Ht2) in *.
    assert (size (fp this ∪ fp otherTree) ≤ size (dom (mem σ)))%nat as Hsz.
    { apply subseteq_size. pose proof (repr_fp_dom _ _ _ this Hrepr).
      pose proof (repr_fp_dom _ _ _ otherTree Hrepr). set_solver. }
    rewrite size_union, size_dom in Hsz by (by apply Hdisj). lia. }
  rewrite (bind_ok _ _ _ _ _ (on_mem_ok _ _ _ _ Hrun)).
  rewrite (bind_ok _ _ _ _ _ (set_root_ok (Machine m1 (objs σ)) _ _ q Hp1)). simpl.
  rewrite (bind_ok _ _ (Machine m1 _) ()
             (Machine m1 (<[otherTree:=None]> (<[this:=q]> (objs σ))))).
  2:{ unfold set_root. simpl. by rewrite lookup_insert_ne, Hp2. }
  exists (Machine m1 (<[otherTree:=None]> (<[this:=q]> (objs σ)))),
    (λ x, if decide (x = otherTree) then ∅
          else if decide (x = this) then fp this ∪ fp otherTree else fp x).
  split; [done|]. split; [|split]; simpl.
  - split; [|split]; simpl.
    + intros x. destruct (decide (x = otherTree)) as [->|Hx2].
      { by rewrite lookup_insert_eq, root_update_eq. }
      rewrite lookup_insert_ne, root_update_ne by done.
      destruct (decide (x = this)) as [->|Hx1].
      { by rewrite lookup_insert_eq, root_update_eq. }
      rewrite lookup_insert_ne, root_update_ne by done.
      specialize (Hobj x). destruct (objs σ !! x) as [px|]; [|done].
      eapply tree_at_frame; [|done]. intros b Hb. apply Hfr.
      pose proof (Hdisj x this Hx1 b Hb). pose proof (Hdisj x otherTree Hx2 b Hb).
      set_solver.
    + intros a b Hab.
      destruct (decide (a = otherTree)), (decide (b = otherTree));
        [set_solver..|].
      destruct (decide (a = this)) as [->|], (decide (b = this)) as [->|];
        [done| | |by apply Hdisj].
      * pose proof (Hdisj this b). pose proof (Hdisj otherTree b). set_solver.
      * pose proof (Hdisj a this). pose proof (Hdisj a otherTree). set_solver.
    + intros l. rewrite Hdom, Hmem. split.
      * intros [x Hx]. destruct (decide (x = otherTree)) as [->|Hx2].
        { exists this. rewrite decide_False, decide_True by done. set_solver. }
        exists x. rewrite decide_False by done.
        destruct (decide (x = this)) as [->|]; set_solver.
      * intros [x Hx]. destruct (decide (x = otherTree)); [set_solver|].
        destruct (decide (x = this)) as [->|]; [|eauto].
        apply elem_of_union in Hx as [?|?]; eauto.
  - rewrite !dom_insert_L.
    assert (this ∈ dom (objs σ)) by (by apply elem_of_dom).
    assert (otherTree ∈ dom (objs σ)) by (by apply elem_of_dom).
    set_solver.
  - done.
Qed.

Lemma destructor_ptr_ok σ s fp this p fuel :
  repr σ s fp → objs σ !! this = Some p → (size (mem σ) ≤ fuel)%nat →
  ∃ σ' fp',
    destructor_ptr fuel this σ = Ok () σ' ∧
    repr σ' (<[this := nullptr]> s) fp' ∧
    objs σ' = delete this (objs σ) ∧
    dom (mem σ') = dom (mem σ) ∖ fp this ∧
    (∀ a, a ∉ fp this → mem σ' !! a = mem σ !! a).
Proof.
  intros Hrepr Hp Hfuel. pose proof (repr_live _ _ _ _ _ Hrepr Hp) as Ht.
  pose proof (repr_count_size _ _ _ this Hrepr) as Hcount.
  destruct (destroyRecursive_ptr_ok fuel (mem σ) p _ _ Ht)
    as (m1 & Hrun & Hdom & Hfr); [lia|].
  unfold destructor_ptr.
  rewrite (bind_ok _ _ _ _ _ (get_root_ok _ _ _ Hp)).
  rewrite (bind_ok _ _ _ _ _ (on_mem_ok _ _ _ _ Hrun)).
  unfold end_lifetime; simpl. eexists _, _. split; [done|].
  split; [|done]; simpl.
  apply (repr_update σ s fp this _ _ _ ∅); [done|..].
  - intros x Hx. by rewrite lookup_delete_ne.
  - by rewrite lookup_delete_eq.
  - set_solver.
  - intros b Hb _. by apply Hfr.
  - rewrite Hdom. set_solver.
Qed.

Lemma LeftistTree_ptr_ok σ s fp this :
  repr σ s fp → objs σ !! this = None →
  ∃ σ' fp',
    LeftistTree_ptr this σ = Ok () σ' ∧
    repr σ' (<[this := nullptr]> s) fp' ∧
    objs σ' = <[this := None]> (objs σ) ∧ mem σ' = mem σ.
Proof.
  intros Hrepr Hp. unfold LeftistTree_ptr. rewrite Hp.
  eexists _, _. split; [done|]. split; [|done]; simpl.
  pose proof Hrepr as (Hobj & _ & _). specialize (Hobj this).
  rewrite Hp in Hobj. destruct Hobj as [_ Hfp].
  apply (repr_update σ s fp this _ _ _ ∅); [done|..].
  - intros x Hx. by rewrite lookup_insert_ne.
  - by rewrite lookup_insert_eq.
  - set_solver.
  - done.
  - rewrite Hfp. set_solver.
Qed.

Lemma repr_boot : repr boot ∅ (λ _, ∅).
Proof.
  split; [|split]; simpl.
  - intros this. rewrite lookup_empty. split; [apply root_empty_store|done].
  - set_solver.
  - intros l. rewrite dom_empty_L. split; [set_solver|]. by intros [_ ?].
Qed.

Lemma first_free_fresh (m : memory) : first_free m ∉ dom m.
Proof. unfold first_free. apply (is_fresh (dom m : gset loc)). Qed.

Section allocator_facts.
Variable alloc : memory → loc.
Hypothesis alloc_fresh : ∀ m, alloc m ∉ dom m.

Lemma insert_ptr_ok σ s fp this p k fuel :
  repr σ s fp → objs σ !! this = Some p → (size (mem σ) < fuel)%nat →
  ∃ σ' fp',
    insert_ptr alloc fuel this k σ = Ok (Return ()) σ' ∧
    repr σ' (insert this k s).2 fp' ∧
    dom (objs σ') = dom (objs σ) ∧
    dom (mem σ') = {[alloc (mem σ)]} ∪ dom (mem σ).
Proof.
  intros Hrepr Hp Hfuel. pose proof (repr_live _ _ _ _ _ Hrepr Hp) as Ht.
  pose proof (repr_count_size _ _ _ this Hrepr) as Hcount.
  pose proof (repr_fp_dom _ _ _ this Hrepr) as Hfp.
  pose proof (alloc_fresh (mem σ)) as Hfresh.
  set (a := alloc (mem σ)) in *.
  pose (m0 := <[a := Cell k 0 None None]> (mem σ)).
  assert (Ht0 : tree_at m0 p (root this s) (fp this)).
  { apply tree_at_insert_other; [|done]. clear -Hfp Hfresh. set_solver. }
  assert (Hn0 : tree_at m0 (Some a) (new_Node k) ({[a]} ∪ ∅ ∪ ∅)).
  { simpl. exists a, None, None, ∅, ∅. unfold m0. rewrite lookup_insert_eq.
    repeat split; set_solver. }
  destruct (merge_ptr_ok fuel m0 p (Some a) _ _ _ _ Ht0 Hn0)
    as (q & m1 & Hrun & Hq & Hfr & Hdom).
  { clear -Hfp Hfresh. set_solver. }
  { pose proof (rspine_le_count (root this s)). simpl. lia. }
  unfold insert_ptr, insert.
  rewrite (bind_ok (on_mem (new_Node_ptr alloc k)) _ σ a (Machine m0 (objs σ)))
    by done.
  rewrite (bind_ok _ _ _ _ _ (get_root_ok (Machine m0 (objs σ)) _ _ Hp)).
  rewrite (bind_ok _ _ (Machine m0 (objs σ)) q (Machine m1 (objs σ)))
    by (unfold on_mem; simpl; by rewrite Hrun).
  rewrite (bind_ok _ _ _ _ _ (set_root_ok (Machine m1 (objs σ)) _ _ q Hp)).
  simpl. eexists _, _. split; [done|]. split; [|split]; simpl.
  - apply (repr_update σ s fp this _ _ _ (fp this ∪ ({[a]} ∪ ∅ ∪ ∅))); [done|..].
    + intros x Hx. by rewrite lookup_insert_ne.
    + by rewrite lookup_insert_eq.
    + intros b Hb. clear -Hb Hfresh. set_solver.
    + intros b Hb1 Hb2. rewrite Hfr by done. apply lookup_insert_ne.
      clear -Hb2. set_solver.
    + rewrite Hdom. unfold m0. rewrite dom_insert_L.
      clear -Hfp. apply set_eq. intros b.
      destruct (decide (b ∈ fp this)); set_solver.
  - rewrite dom_insert_L. assert (this ∈ dom (objs σ)) by (by apply elem_of_dom).
    set_solver.
  - rewrite Hdom. unfold m0. by rewrite dom_insert_L.
Qed.

Lemma size_mem_le (m m' : memory) (X : gset loc) :
  dom m' ⊆ X ∪ dom m → (size X ≤ 1)%nat → (size m' ≤ S (size m))%nat.
Proof.
  intros Hsub HX. rewrite <- !size_dom.
  etrans; [by apply subseteq_size|]. rewrite size_union_alt.
  assert (size (dom m ∖ X) ≤ size (dom m))%nat
    by (apply subseteq_size; set_solver).
  lia.
Qed.

Lemma exec_ptr_ok σ s fp c cs fuel :
  repr σ s fp → lifetimes_ok (dom (objs σ)) (c :: cs) = true →
  (size (mem σ) < fuel)%nat →
  ∃ σ' fp',
    exec_ptr alloc fuel c σ = Ok (observe (abs c) s) σ' ∧
    repr σ' (exec (abs c) s) fp' ∧
    lifetimes_ok (dom (objs σ')) cs = true ∧
    (size (mem σ') ≤ S (size (mem σ)))%nat.
Proof.
  intros Hrepr Hlife Hfuel.
  destruct c as [[this|this|this k|this|this|this otherTree]|this];
    simpl in Hlife; simpl.
  - apply andb_true_iff in Hlife as [Hdead%bool_decide_eq_true Hlife].
    apply not_elem_of_dom in Hdead.
    destruct (LeftistTree_ptr_ok _ _ _ _ Hrepr Hdead)
      as (σ' & fp' & Hrun & Hrepr' & Hobjs & Hmem).
    exists σ', fp'. rewrite (bind_ok _ _ _ _ _ Hrun).
    split; [done|]. split; [done|]. rewrite Hobjs, dom_insert_L, Hmem.
    split; [done|lia].
  - apply andb_true_iff in Hlife as [Hlive%bool_decide_eq_true Hlife].
    apply elem_of_dom in Hlive as [p Hp].
    exists σ, fp.
    rewrite (bind_ok _ _ _ _ _ (isEmpty_ptr_ok _ _ _ _ _ Hrepr Hp)).
    split; [done|]. split; [done|]. split; [done|lia].
  - apply andb_true_iff in Hlife as [Hlive%bool_decide_eq_true Hlife].
    apply elem_of_dom in Hlive as [p Hp].
    destruct (insert_ptr_ok _ _ _ _ _ k _ Hrepr Hp Hfuel)
      as (σ' & fp' & Hrun & Hrepr' & Hobjs & Hmem).
    exists σ', fp'. rewrite (bind_ok _ _ _ _ _ Hrun).
    split; [done|]. split; [done|]. rewrite Hobjs. split; [done|].
    apply (size_mem_le _ _ {[alloc (mem σ)]}); [by rewrite Hmem|].
    by rewrite size_singleton.
  - apply andb_true_iff in Hlife as [Hlive%bool_decide_eq_true Hlife].
    apply elem_of_dom in Hlive as [p Hp].
    destruct (getMin_ptr_ok _ _ _ _ _ Hrepr Hp) as [Hrun Hs].
    exists σ, fp. rewrite (bind_ok _ _ _ _ _ Hrun), Hs.
    split; [done|]. split; [done|]. split; [done|lia].
  - apply andb_true_iff in Hlife as [Hlive%bool_decide_eq_true Hlife].
    apply elem_of_dom in Hlive as [p Hp].
    destruct (extractMin_ptr_ok _ _ _ _ _ fuel Hrepr Hp)
      as (σ' & fp' & Hrun & Hrepr' & Hobjs & Hmem); [lia|].
    exists σ', fp'. rewrite (bind_ok _ _ _ _ _ Hrun).
    split; [done|]. split; [done|]. rewrite Hobjs. split; [done|].
    apply (size_mem_le _ _ ∅); [|by rewrite size_empty; lia].
    rewrite Hmem. destruct p; set_solver.
  - apply andb_true_iff in Hlife as [Hlive Hlife].
    apply andb_true_iff in Hlive as [H1%bool_decide_eq_true H2%bool_decide_eq_true].
    apply elem_of_dom in H1 as [p1 Hp1]. apply elem_of_dom in H2 as [p2 Hp2].
    destruct (mergeWith_ptr_ok _ _ _ _ _ _ _ fuel Hrepr Hp1 Hp2)
      as (σ' & fp' & Hrun & Hrepr' & Hobjs & Hmem); [lia|].
    exists σ', fp'. rewrite (bind_ok _ _ _ _ _ Hrun).
    split; [done|]. split; [done|]. rewrite Hobjs. split; [done|].
    rewrite <- !size_dom, Hmem. lia.
  - apply andb_true_iff in Hlife as [Hlive%bool_decide_eq_true Hlife].
    apply elem_of_dom in Hlive as [p Hp].
    destruct (destructor_ptr_ok _ _ _ _ _ fuel Hrepr Hp)
      as (σ' & fp' & Hrun & Hrepr' & Hobjs & Hmem & _); [lia|].
    exists σ', fp'. rewrite (bind_ok _ _ _ _ _ Hrun).
    split; [done|]. split; [done|]. rewrite Hobjs, dom_delete_L.
    split; [done|].
    apply (size_mem_le _ _ ∅); [|by rewrite size_empty; lia].
    rewrite Hmem. set_solver.
Qed.

Lemma run_ptr_ok cs σ s fp fuel :
  repr σ s fp → lifetimes_ok (dom (objs σ)) cs = true →
  (size (mem σ) + length cs ≤ fuel)%nat →
  ∃ σ',
    run_ptr alloc fuel cs σ = Ok (run_obs (abs <$> cs) s) σ' ∧
    represents σ' (run (abs <$> cs) s).
Proof.
  revert σ s fp. induction cs as [|c cs IH]; intros σ s fp Hrepr Hlife Hfuel.
  - exists σ. split; [done|]. by exists fp.
  - simpl in Hfuel.
    destruct (exec_ptr_ok σ s fp c cs fuel Hrepr Hlife)
      as (σ1 & fp1 & Hrun1 & Hrepr1 & Hlife1 & Hsize); [lia|].
    destruct (IH σ1 _ fp1 Hrepr1 Hlife1) as (σ' & Hrun & Hrep); [lia|].
    exists σ'. split; [|done].
    cbn [run_ptr]. rewrite (bind_ok _ _ _ _ _ Hrun1).
    by rewrite (bind_ok _ _ _ _ _ Hrun).
Qed.

End allocator_facts.

Lemma ex_represents : represents ex_machine ex_store.
Proof.
  destruct (run_ptr_ok first_free first_free_fresh ex_calls boot ∅ _ 10 repr_boot)
    as (σ' & Hrun & Hrep); [by_evaluation|by_evaluation|].
  unfold ex_machine. by rewrite Hrun.
Qed.

Lemma represents_no_objects σ s : represents σ s → objs σ = ∅ → mem σ = ∅.
Proof.
  intros (fp & Hobj & _ & Hmem) Hobjs.
  apply dom_empty_inv_L, set_eq. intros l. rewrite Hmem. split; [|set_solver].
  intros [this Hl]. specialize (Hobj this). rewrite Hobjs, lookup_empty in Hobj.
  destruct Hobj as [_ Hfp]. rewrite Hfp in Hl. set_solver.
Qed.

(** ** What the program on memory does *)

(** X11. [merge] works in place: on two trees that lie at disjoint addresses,
    with a recursion depth of at least the sum of their right spines at
    its disposal, it returns a pointer to the tree that [merge] computes
    on trees, built from the very nodes of the two inputs; it allocates
    and frees nothing and leaves every other node as it was. *)
Theorem merge_ptr_refines fuel (m : memory) h1 h2 t1 t2 F1 F2 :
  tree_at m h1 t1 F1 → tree_at m h2 t2 F2 → F1 ## F2 →
  (rspine t1 + rspine t2 ≤ fuel)%nat →
  ∃ p m',
    merge_ptr fuel h1 h2 m = Ok p m' ∧
    tree_at m' p (merge t1 t2) (F1 ∪ F2) ∧
    (∀ a, a ∉ F1 ∪ F2 → m' !! a = m !! a) ∧
    dom m' = dom m.
Proof. apply merge_ptr_ok. Qed.

Lemma merge_ptr_refines_witness :
  let m : memory :=
    {[ 1%positive := Cell 5 0 None None; 2%positive := Cell 3 0 None None;
       3%positive := Cell 9 0 None None ]} in
  let F1 : gset loc := {[1%positive]} ∪ ∅ ∪ ∅ in
  let F2 : gset loc := {[2%positive]} ∪ ∅ ∪ ∅ in
  tree_at m (Some 1%positive) (new_Node 5) F1 ∧
  tree_at m (Some 2%positive) (new_Node 3) F2 ∧
  F1 ## F2 ∧ (rspine (new_Node 5) + rspine (new_Node 3) ≤ 2)%nat ∧
  ∃ p m',
    merge_ptr 2 (Some 1%positive) (Some 2%positive) m = Ok p m' ∧
    tree_at m' p (merge (new_Node 5) (new_Node 3)) (F1 ∪ F2) ∧
    (∀ a, a ∉ F1 ∪ F2 → m' !! a = m !! a) ∧
    dom m' = dom m.
Proof.
  intros m F1 F2.
  assert (H1 : tree_at m (Some 1%positive) (new_Node 5) F1).
  { exists 1%positive, None, None, ∅, ∅. repeat split; set_solver. }
  assert (H2 : tree_at m (Some 2%positive) (new_Node 3) F2).
  { exists 2%positive, None, None, ∅, ∅. repeat split; set_solver. }
  assert (H3 : F1 ## F2) by set_solver.
  assert (H4 : (rspine (new_Node 5) + rspine (new_Node 3) ≤ 2)%nat)
    by (simpl; lia).
  exact (conj H1 (conj H2 (conj H3 (conj H4
           (merge_ptr_refines 2 m _ _ _ _ F1 F2 H1 H2 H3 H4))))).
Defined.

(** X12. [destroyRecursive] frees every node of the tree it is given, each
    exactly once (a second [delete] of a node would be a fault), and
    nothing else: afterwards memory holds the nodes it held outside the
    tree, unchanged. *)
Theorem destroyRecursive_ptr_frees fuel (m : memory) p t F :
  tree_at m p t F → (count t ≤ fuel)%nat →
  ∃ m',
    destroyRecursive_ptr fuel p m = Ok () m' ∧
    dom m' = dom m ∖ F ∧
    (∀ a, a ∉ F → m' !! a = m !! a).
Proof. apply destroyRecursive_ptr_ok. Qed.

Lemma destroyRecursive_ptr_frees_witness :
  let m : memory :=
    {[ 1%positive := Cell 5 0 (Some 2%positive) None;
       2%positive := Cell 8 0 None None;
       3%positive := Cell 9 0 None None ]} in
  let t := mkNode 5 0 (new_Node 8) nullptr in
  let F : gset loc := {[1%positive]} ∪ ({[2%positive]} ∪ ∅ ∪ ∅) ∪ ∅ in
  tree_at m (Some 1%positive) t F ∧ (count t ≤ 2)%nat ∧
  ∃ m',
    destroyRecursive_ptr 2 (Some 1%positive) m = Ok () m' ∧
    dom m' = dom m ∖ F ∧
    (∀ a, a ∉ F → m' !! a = m !! a).
Proof.
  intros m t F.
  assert (H1 : tree_at m (Some 1%positive) t F).
  { exists 1%positive, (Some 2%positive), None, ({[2%positive]} ∪ ∅ ∪ ∅), ∅.
    split; [done|]. split; [done|]. split.
    { exists 2%positive, None, None, ∅, ∅. repeat split; set_solver. }
    repeat split; set_solver. }
  assert (H2 : (count t ≤ 2)%nat) by (simpl; lia).
  exact (conj H1 (conj H2 (destroyRecursive_ptr_frees 2 m _ t F H1 H2))).
Defined.

(** Handing [merge] the same tree twice, which the address test of
    [mergeWith] prevents, makes a node its own child. *)
Example merge_ptr_aliased :
  let m : memory := {[ 1%positive := Cell 5 0 None None ]} in
  merge_ptr 1 (Some 1%positive) (Some 1%positive) m
  = Ok (Some 1%positive)
       {[ 1%positive := Cell 5 0 (Some 1%positive) None ]}.
Proof. vm_compute. reflexivity. Qed.

(** X13. [isEmpty] and [getMin] on an object that exists read memory only:
    they return what the operations on trees return and leave the
    machine state as it was. *)
Theorem observers_ptr_refine σ s this p :
  represents σ s → objs σ !! this = Some p →
  isEmpty_ptr this σ = Ok (isEmpty this s) σ ∧
  getMin_ptr this σ = Ok (getMin this s).1 σ.
Proof.
  intros [fp Hrepr] Hp. split.
  - by eapply isEmpty_ptr_ok.
  - by eapply getMin_ptr_ok.
Qed.

Lemma observers_ptr_refine_witness :
  represents ex_machine ex_store ∧
  objs ex_machine !! 1%nat = Some (Some 2%positive) ∧
  isEmpty_ptr 1%nat ex_machine = Ok false ex_machine ∧
  getMin_ptr 1%nat ex_machine = Ok (Return 5) ex_machine.
Proof.
  assert (H1 := ex_represents).
  assert (H2 : objs ex_machine !! 1%nat = Some (Some 2%positive))
    by by_evaluation.
  exact (conj H1 (conj H2 (observers_ptr_refine _ _ 1%nat _ H1 H2))).
Defined.

(** X14. [extractMin] on an object that exists returns what [extractMin] on
    trees returns and leaves the machine holding the heaps of the store
    after it.  On a non-empty heap it frees exactly one node, the old
    root; on an empty heap it throws and frees nothing. *)
Theorem extractMin_ptr_refines σ s this p fuel :
  represents σ s → objs σ !! this = Some p → (size (mem σ) ≤ fuel)%nat →
  ∃ σ',
    extractMin_ptr fuel this σ = Ok (extractMin this s).1 σ' ∧
    represents σ' (extractMin this s).2 ∧
    dom (objs σ') = dom (objs σ) ∧
    dom (mem σ') = match p with
                   | Some a => dom (mem σ) ∖ {[a]}
                   | None => dom (mem σ)
                   end.
Proof.
  intros [fp Hrepr] Hp Hfuel.
  destruct (extractMin_ptr_ok σ s fp this p fuel Hrepr Hp Hfuel)
    as (σ' & fp' & Hrun & Hrepr' & Hobjs & Hmem).
  exists σ'. split; [done|]. split; [by exists fp'|done].
Qed.

Lemma extractMin_ptr_refines_witness :
  represents ex_machine ex_store ∧
  objs ex_machine !! 1%nat = Some (Some 2%positive) ∧
  (size (mem ex_machine) ≤ 4)%nat ∧
  ∃ σ',
    extractMin_ptr 4 1%nat ex_machine = Ok (Return 5) σ' ∧
    represents σ' (extractMin 1%nat ex_store).2 ∧
    dom (objs σ') = dom (objs ex_machine) ∧
    dom (mem σ') = dom (mem ex_machine) ∖ {[2%positive]}.
Proof.
  assert (H1 := ex_represents).
  assert (H2 : objs ex_machine !! 1%nat = Some (Some 2%positive))
    by by_evaluation.
  assert (H3 : (size (mem ex_machine) ≤ 4)%nat) by by_evaluation.
  exact (conj H1 (conj H2 (conj H3
           (extractMin_ptr_refines _ _ 1%nat _ 4 H1 H2 H3)))).
Defined.

(** X15. [mergeWith] on two objects that exist returns normally and leaves
    the machine holding the heaps of the store after [mergeWith] on
    trees; it allocates and frees no node, so the nodes of the other
    heap now belong to the receiver. *)
Theorem mergeWith_ptr_refines σ s this otherTree p1 p2 fuel :
  represents σ s →
  objs σ !! this = Some p1 → objs σ !! otherTree = Some p2 →
  (size (mem σ) ≤ fuel)%nat →
  ∃ σ',
    mergeWith_ptr fuel this otherTree σ = Ok (Return ()) σ' ∧
    represents σ' (mergeWith this otherTree s).2 ∧
    dom (objs σ') = dom (objs σ) ∧
    dom (mem σ') = dom (mem σ) ∧
    (this ≠ otherTree → objs σ' !! otherTree = Some None).
Proof.
  intros [fp Hrepr] Hp1 Hp2 Hfuel.
  destruct (mergeWith_ptr_ok σ s fp this otherTree p1 p2 fuel Hrepr Hp1 Hp2 Hfuel)
    as (σ' & fp' & Hrun & Hrepr' & Hobjs & Hmem).
  exists σ'. split; [done|]. split; [by exists fp'|].
  split; [done|]. split; [done|]. intros Hne.
  assert (is_Some (objs σ' !! otherTree)) as [q Hq].
  { apply elem_of_dom. rewrite Hobjs. by apply elem_of_dom. }
  pose proof (repr_live _ _ _ otherTree _ Hrepr' Hq) as Hlive.
  unfold mergeWith in Hlive. rewrite decide_False in Hlive by done.
  simpl in Hlive. rewrite root_update_eq in Hlive.
  destruct Hlive as [-> _]. exact Hq.
Qed.

Lemma mergeWith_ptr_refines_witness :
  represents ex_machine ex_store ∧
  objs ex_machine !! 1%nat = Some (Some 2%positive) ∧
  objs ex_machine !! 2%nat = Some (Some 3%positive) ∧
  (size (mem ex_machine) ≤ 4)%nat ∧
  ∃ σ',
    mergeWith_ptr 4 1%nat 2%nat ex_machine = Ok (Return ()) σ' ∧
    represents σ' (mergeWith 1%nat 2%nat ex_store).2 ∧
    dom (objs σ') = dom (objs ex_machine) ∧
    dom (mem σ') = dom (mem ex_machine) ∧
    (1%nat ≠ 2%nat → objs σ' !! 2%nat = Some None).
Proof.
  assert (H1 := ex_represents).
  assert (H2 : objs ex_machine !! 1%nat = Some (Some 2%positive))
    by by_evaluation.
  assert (H3 : objs ex_machine !! 2%nat = Some (Some 3%positive))
    by by_evaluation.
  assert (H4 : (size (mem ex_machine) ≤ 4)%nat) by by_evaluation.
  exact (conj H1 (conj H2 (conj H3 (conj H4
           (mergeWith_ptr_refines _ _ 1%nat 2%nat _ _ 4 H1 H2 H3 H4))))).
Defined.

(** X16. The destructor of an object that exists frees exactly the nodes of
    its heap, as many as the heap has elements, and ends the object;
    the other heaps and their nodes stay as they were. *)
Theorem destructor_ptr_frees σ s this p fuel :
  represents σ s → objs σ !! this = Some p → (size (mem σ) ≤ fuel)%nat →
  ∃ σ',
    destructor_ptr fuel this σ = Ok () σ' ∧
    represents σ' (<[this := nullptr]> s) ∧
    objs σ' = delete this (objs σ) ∧
    (size (mem σ') + count (root this s) = size (mem σ))%nat ∧
    dom (mem σ') ⊆ dom (mem σ) ∧
    (∀ a, a ∈ dom (mem σ') → mem σ' !! a = mem σ !! a).
Proof.
  intros [fp Hrepr] Hp Hfuel.
  destruct (destructor_ptr_ok σ s fp this p fuel Hrepr Hp Hfuel)
    as (σ' & fp' & Hrun & Hrepr' & Hobjs & Hmem & Hfr).
  pose proof (repr_live _ _ _ _ _ Hrepr Hp) as Ht.
  pose proof (repr_fp_dom _ _ _ this Hrepr) as Hfp.
  exists σ'. split; [done|]. split; [by exists fp'|]. split; [done|].
  split; [|split].
  - rewrite <- (tree_at_size _ _ _ _ Ht), <- !size_dom, Hmem.
    rewrite size_difference by done.
    assert (size (fp this) ≤ size (dom (mem σ)))%nat by (by apply subseteq_size).
    lia.
  - rewrite Hmem. set_solver.
  - intros a Ha. apply Hfr. rewrite Hmem in Ha. set_solver.
Qed.

Lemma destructor_ptr_frees_witness :
  represents ex_machine ex_store ∧
  objs ex_machine !! 1%nat = Some (Some 2%positive) ∧
  (size (mem ex_machine) ≤ 4)%nat ∧
  ∃ σ',
    destructor_ptr 4 1%nat ex_machine = Ok () σ' ∧
    represents σ' (<[1%nat := nullptr]> ex_store) ∧
    objs σ' = delete 1%nat (objs ex_machine) ∧
    (size (mem σ') + count (root 1%nat ex_store) = size (mem ex_machine))%nat ∧
    dom (mem σ') ⊆ dom (mem ex_machine) ∧
    (∀ a, a ∈ dom (mem σ') → mem σ' !! a = mem ex_machine !! a).
Proof.
  assert (H1 := ex_represents).
  assert (H2 : objs ex_machine !! 1%nat = Some (Some 2%positive))
    by by_evaluation.
  assert (H3 : (size (mem ex_machine) ≤ 4)%nat) by by_evaluation.
  exact (conj H1 (conj H2 (conj H3
           (destructor_ptr_frees _ _ 1%nat _ 4 H1 H2 H3)))).
Defined.

Section allocator_theorems.
Variable alloc : memory → loc.
Hypothesis alloc_fresh : ∀ m, alloc m ∉ dom m.

(** X17. [insert] on an object that exists returns normally and leaves the
    machine holding the heaps of the store after [insert] on trees; it
    allocates exactly one node, at the address [new] returned, and frees
    none. *)
Theorem insert_ptr_refines σ s this p k fuel :
  represents σ s → objs σ !! this = Some p → (size (mem σ) < fuel)%nat →
  ∃ σ',
    insert_ptr alloc fuel this k σ = Ok (Return ()) σ' ∧
    represents σ' (insert this k s).2 ∧
    dom (objs σ') = dom (objs σ) ∧
    dom (mem σ') = {[alloc (mem σ)]} ∪ dom (mem σ) ∧
    size (mem σ') = S (size (mem σ)).
Proof.
  intros [fp Hrepr] Hp Hfuel.
  destruct (insert_ptr_ok alloc alloc_fresh σ s fp this p k fuel Hrepr Hp Hfuel)
    as (σ' & fp' & Hrun & Hrepr' & Hobjs & Hmem).
  exists σ'. split; [done|]. split; [by exists fp'|].
  split; [done|]. split; [done|].
  rewrite <- !size_dom, Hmem, size_union, size_singleton.
  - done.
  - pose proof (alloc_fresh (mem σ)). set_solver.
Qed.

(** X18. A program that respects the lifetimes of its objects runs on memory
    without a fault: no node is read or freed after it was freed and no
    object is used before its construction or after its destruction.
    Every call returns what the operations on trees return, and at the
    end memory holds the heaps those operations give: one tree per
    object, no node in two heaps, and no node outside the heaps. *)
Theorem program_refines cs fuel :
  lifetimes_ok ∅ cs = true → (length cs ≤ fuel)%nat →
  ∃ σ,
    run_ptr alloc fuel cs boot = Ok (run_obs (abs <$> cs) ∅) σ ∧
    represents σ (run (abs <$> cs) ∅).
Proof.
  intros Hlife Hfuel.
  apply (run_ptr_ok alloc alloc_fresh cs boot ∅ _ fuel repr_boot).
  - simpl. by rewrite dom_empty_L.
  - simpl. by rewrite map_size_empty.
Qed.

(** X19. A program that respects the lifetimes of its objects and has
    destroyed every object it constructed leaves no node in memory. *)
Theorem program_no_leak cs fuel os σ :
  lifetimes_ok ∅ cs = true → (length cs ≤ fuel)%nat →
  run_ptr alloc fuel cs boot = Ok os σ →
  objs σ = ∅ → mem σ = ∅.
Proof.
  intros Hlife Hfuel Hrun Hobjs.
  destruct (run_ptr_ok alloc alloc_fresh cs boot ∅ _ fuel repr_boot)
    as (σ' & Hrun' & Hrep).
  - simpl. by rewrite dom_empty_L.
  - simpl. by rewrite map_size_empty.
  - rewrite Hrun in Hrun'. injection Hrun' as _ <-.
    by eapply represents_no_objects.
Qed.

End allocator_theorems.

Lemma insert_ptr_refines_witness :
  (∀ m, first_free m ∉ dom m) ∧
  represents ex_machine ex_store ∧
  objs ex_machine !! 2%nat = Some (Some 3%positive) ∧
  (size (mem ex_machine) < 5)%nat ∧
  ∃ σ',
    insert_ptr first_free 5 2%nat 1 ex_machine = Ok (Return ()) σ' ∧
    represents σ' (insert 2%nat 1 ex_store).2 ∧
    dom (objs σ') = dom (objs ex_machine) ∧
    dom (mem σ') = {[first_free (mem ex_machine)]} ∪ dom (mem ex_machine) ∧
    size (mem σ') = S (size (mem ex_machine)).
Proof.
  assert (H1 := ex_represents).
  assert (H2 : objs ex_machine !! 2%nat = Some (Some 3%positive))
    by by_evaluation.
  assert (H3 : (size (mem ex_machine) < 5)%nat) by by_evaluation.
  exact (conj first_free_fresh (conj H1 (conj H2 (conj H3
           (insert_ptr_refines first_free first_free_fresh _ _ 2%nat _ 1 5
              H1 H2 H3))))).
Defined.

Lemma program_refines_witness :
  let cs := ex_calls ++ [Call (MergeWith 1%nat 2%nat); Call (ExtractMin 1%nat);
                         Call (GetMin 1%nat); Destroy 2%nat;
                         Call (IsEmpty 1%nat)] in
  (∀ m, first_free m ∉ dom m) ∧
  lifetimes_ok ∅ cs = true ∧ (length cs ≤ 11)%nat ∧
  ∃ σ,
    run_ptr first_free 11 cs boot = Ok (run_obs (abs <$> cs) ∅) σ ∧
    represents σ (run (abs <$> cs) ∅).
Proof.
  intros cs.
  assert (H1 : lifetimes_ok ∅ cs = true) by by_evaluation.
  assert (H2 : (length cs ≤ 11)%nat) by by_evaluation.
  exact (conj first_free_fresh (conj H1 (conj H2
           (program_refines first_free first_free_fresh cs 11 H1 H2)))).
Defined.

Lemma program_no_leak_witness :
  let cs := ex_calls ++ [Call (ExtractMin 1%nat); Destroy 2%nat; Destroy 1%nat] in
  (∀ m, first_free m ∉ dom m) ∧
  lifetimes_ok ∅ cs = true ∧ (length cs ≤ 9)%nat ∧
  run_ptr first_free 9 cs boot
    = Ok [ObsVoid; ObsVoid; ObsVoid; ObsVoid; ObsVoid; ObsVoid;
          ObsKey (Return 5); ObsVoid; ObsVoid] (Machine ∅ ∅) ∧
  mem (Machine ∅ ∅) = ∅.
Proof.
  intros cs.
  assert (H1 : lifetimes_ok ∅ cs = true) by by_evaluation.
  assert (H2 : (length cs ≤ 9)%nat) by by_evaluation.
  assert (H3 : run_ptr first_free 9 cs boot
               = Ok [ObsVoid; ObsVoid; ObsVoid; ObsVoid; ObsVoid; ObsVoid;
                     ObsKey (Return 5); ObsVoid; ObsVoid] (Machine ∅ ∅))
    by by_evaluation.
  exact (conj first_free_fresh (conj H1 (conj H2 (conj H3
           (program_no_leak first_free first_free_fresh cs 9 _ _ H1 H2 H3
              eq_refl))))).
Defined.
